(** * core_ed25519.c: edwards25519 points, hash-to-curve and the scalar ring

    A shallow embedding of
    [src/libsodium/crypto_core/ed25519/core_ed25519.c].  Buffers are lists of
    bytes, a C [int] result is a [Z], and a function that writes through a
    pointer returns the new content of the buffer it writes. *)

From Stdlib Require Import ZArith Zpow_facts Lia List Bool.
From Stdlib Require String.
Import String.StringSyntax.
Local Delimit Scope string_scope with string.
From coqutil Require Import Byte Word.LittleEndianList Datatypes.List.
Import ListNotations.
Local Open Scope Z_scope.
Local Open Scope list_scope.

(** ** Buffers *)

(** [memset(dst + off, c, n)] *)
Definition memset (dst : list byte) (off : nat) (c : byte) (n : nat) : list byte :=
  List.upds dst off (repeat c n).

(** [memcpy(dst + off, src, n)]: the first [n] bytes of [src] replace the
    bytes of [dst] from [off] on.  The callers below always stay inside both
    arrays. *)
Definition memcpy (dst : list byte) (off : nat) (src : list byte) (n : nat) : list byte :=
  List.upds dst off (firstn n src).

(** The [n] bytes of [buf] that start at [off]: what a callee reads through
    the pointer [&buf[off]]. *)
Definition bytes_at (buf : list byte) (off n : nat) : list byte :=
  firstn n (skipn off buf).

(** [buf[i]] *)
Definition byte_at (buf : list byte) (i : nat) : byte := nth i buf Byte.x00.

(** ** utils.c: constant-time multi-byte arithmetic *)

(** Modelled from the spec: the loop of [sodium_add] (utils.c is not under
    src/), the "integer-add" of the scalar ring: byte by byte from the least
    significant one, with a carry [c]. *)
Fixpoint sodium_add_loop (a b : list byte) (c : Z) : list byte :=
  match a, b with
  | ai :: a', bi :: b' =>
      let c' := c + byte.unsigned ai + byte.unsigned bi in
      byte.of_Z c' :: sodium_add_loop a' b' (Z.shiftr c' 8)
  | _, _ => []
  end.

(** Modelled from the spec: [sodium_add(a, b, len)] adds the [len]-byte
    little-endian number [b] to [a] in place; bytes of [a] from [len] on are
    not touched and the carry out of byte [len - 1] is dropped. *)
Definition sodium_add (a b : list byte) (len : nat) : list byte :=
  sodium_add_loop (firstn len a) (firstn len b) 0 ++ skipn len a.

(** Modelled from the spec: the loop of [sodium_sub] (utils.c is not under
    src/), the "64-byte subtraction" of negate: byte by byte with a borrow. *)
Fixpoint sodium_sub_loop (a b : list byte) (c : Z) : list byte :=
  match a, b with
  | ai :: a', bi :: b' =>
      let c' := byte.unsigned ai - byte.unsigned bi - c in
      byte.of_Z c' :: sodium_sub_loop a' b' (Z.land (Z.shiftr c' 8) 1)
  | _, _ => []
  end.

(** Modelled from the spec: [sodium_sub(a, b, len)] subtracts the [len]-byte
    little-endian number [b] from [a] in place. *)
Definition sodium_sub (a b : list byte) (len : nat) : list byte :=
  sodium_sub_loop (firstn len a) (firstn len b) 0 ++ skipn len a.

(** Modelled from the spec: [sodium_is_zero(n, nlen)] (utils.c is not under
    src/): all the bytes are or-ed together and the result is 1 when that
    is 0 and 0 otherwise. *)
Definition sodium_is_zero (n : list byte) (nlen : nat) : Z :=
  let d := fold_left (fun d b => Z.lor d (byte.unsigned b)) (firstn nlen n) 0 in
  Z.land 1 (Z.shiftr (d - 1) 8).

(** ** private/ed25519_ref10.h: the scalar primitives *)

Definition crypto_core_ed25519_BYTES : nat := 32.
Definition crypto_core_ed25519_UNIFORMBYTES : nat := 32.
Definition crypto_core_ed25519_HASHBYTES : nat := 64.
Definition crypto_core_ed25519_SCALARBYTES : nat := 32.
Definition crypto_core_ed25519_NONREDUCEDSCALARBYTES : nat := 64.

(** The group order, [static const unsigned char L[]]:
    2^252+27742317777372353535851937790883648493, least significant byte
    first. *)
Definition L : list byte :=
  [ Byte.xed; Byte.xd3; Byte.xf5; Byte.x5c; Byte.x1a; Byte.x63; Byte.x12; Byte.x58;
    Byte.xd6; Byte.x9c; Byte.xf7; Byte.xa2; Byte.xde; Byte.xf9; Byte.xde; Byte.x14;
    Byte.x00; Byte.x00; Byte.x00; Byte.x00; Byte.x00; Byte.x00; Byte.x00; Byte.x00;
    Byte.x00; Byte.x00; Byte.x00; Byte.x00; Byte.x00; Byte.x00; Byte.x00; Byte.x10 ].

(** The group order as a number. *)
Definition ell : Z := 2 ^ 252 + 27742317777372353535851937790883648493.

(** Modelled from the spec: [sc25519_reduce(s)] (ed25519_ref10 is not under
    src/) "reduces an arbitrary 64-byte unsigned integer mod L"; it works in
    place and leaves the result in the first 32 bytes of [s]. *)
Definition sc25519_reduce (s : list byte) : list byte :=
  List.upds s 0 (le_split 32 (le_combine (firstn 64 s) mod ell)).

(** Modelled from the spec: [sc25519_is_canonical(s)] (ed25519_ref10 is not
    under src/), "test scalar canonicity": 1 when the 32-byte number is below
    L, 0 otherwise. *)
Definition sc25519_is_canonical (s : list byte) : Z :=
  if le_combine (firstn 32 s) <? ell then 1 else 0.

(** Modelled from the spec: [sc25519_mul(z, x, y)] (ed25519_ref10 is not
    under src/), "delegated modular multiplication mod L". *)
Definition sc25519_mul (x y : list byte) : list byte :=
  le_split 32 ((le_combine (firstn 32 x) * le_combine (firstn 32 y)) mod ell).

(** ** The collaborators taken as interfaces *)

(** crypto_hash_sha512.h: the hash function behind the streaming interface;
    a digest has [crypto_hash_sha512_BYTES] = 64 bytes. *)
Class crypto_hash_sha512 := {
  sha512 : list byte -> list byte
}.

Definition crypto_hash_sha512_BYTES : nat := 64.

(** [crypto_hash_sha512_state]: what has been absorbed since [init]. *)
Definition crypto_hash_sha512_state : Type := list byte.

Definition crypto_hash_sha512_init : crypto_hash_sha512_state := [].

Definition crypto_hash_sha512_update (st : crypto_hash_sha512_state)
    (m : list byte) : crypto_hash_sha512_state :=
  st ++ m.

Definition crypto_hash_sha512_final `{crypto_hash_sha512}
    (st : crypto_hash_sha512_state) : list byte :=
  sha512 st.

(** private/ed25519_ref10.h: decoded points and the operations on them, and
    the scalar inverse.  [ge25519_frombytes] is [None] when the C function
    returns nonzero, and otherwise the point it stored. *)
Class ed25519_ref10 := {
  ge25519_p3 : Type;
  ge25519_p1p1 : Type;
  ge25519_cached : Type;
  ge25519_is_canonical : list byte -> Z;
  ge25519_has_small_order : list byte -> Z;
  ge25519_frombytes : list byte -> option ge25519_p3;
  ge25519_is_on_curve : ge25519_p3 -> Z;
  ge25519_is_on_main_subgroup : ge25519_p3 -> Z;
  ge25519_p3_to_cached : ge25519_p3 -> ge25519_cached;
  ge25519_add : ge25519_p3 -> ge25519_cached -> ge25519_p1p1;
  ge25519_sub : ge25519_p3 -> ge25519_cached -> ge25519_p1p1;
  ge25519_p1p1_to_p3 : ge25519_p1p1 -> ge25519_p3;
  ge25519_p3_tobytes : ge25519_p3 -> list byte;
  ge25519_from_uniform : list byte -> list byte;
  ge25519_from_hash : list byte -> list byte;
  sc25519_invert : list byte -> list byte
}.

(** ** core_ed25519.c *)

(** An array declared without an initialiser.  Every byte of such an array
    is written below before it is read, so its first content is immaterial;
    zeros stand for it. *)
Definition uninit (n : nat) : list byte := repeat Byte.x00 n.

(** The primitives [crypto_core_ed25519_is_valid_point] can call, in the
    order of its condition. *)
Inductive point_check : Type :=
| check_is_canonical
| check_has_small_order
| check_frombytes
| check_is_on_curve
| check_is_on_main_subgroup.

Definition all_point_checks : list point_check :=
  [check_is_canonical; check_has_small_order; check_frombytes;
   check_is_on_curve; check_is_on_main_subgroup].

(** What [_string_to_points] and its two callers leave behind: the returned
    [int], the content of the output array, and the message of every hash
    computation finished on the way, oldest first. *)
Record h2c_result : Type := {
  h2c_ret : Z;
  h2c_out : list byte;
  h2c_hashed : list (list byte)
}.

(** The locals of [_string_to_points] that its first loop changes, with the
    messages hashed so far. *)
Record h2c_locals : Type := {
  loc_u : list byte;
  loc_t : list byte;
  loc_hashed : list (list byte)
}.

Definition HASH_BYTES : nat := crypto_hash_sha512_BYTES.
Definition HASH_BLOCKBYTES : nat := 128.
Definition HASH_L : nat := 48.

(** [strlen]: the number of bytes before the first NUL; a string is given by
    its bytes, with or without the terminator. *)
Fixpoint strlen (s : list byte) : nat :=
  match s with
  | [] => O
  | b :: s' => if byte.unsigned b =? 0 then O else S (strlen s')
  end.

Section Core.
Context {hash : crypto_hash_sha512} {ref10 : ed25519_ref10}.

(** The condition of [crypto_core_ed25519_is_valid_point], operand by
    operand as [||] evaluates it, with the primitives called on the way. *)
Definition crypto_core_ed25519_is_valid_point_trace (p : list byte)
  : list point_check * Z :=
  if ge25519_is_canonical p =? 0 then
    ([check_is_canonical], 0)
  else if negb (ge25519_has_small_order p =? 0) then
    ([check_is_canonical; check_has_small_order], 0)
  else
    match ge25519_frombytes p with
    | None =>
        ([check_is_canonical; check_has_small_order; check_frombytes], 0)
    | Some p_p3 =>
        if ge25519_is_on_curve p_p3 =? 0 then
          ([check_is_canonical; check_has_small_order; check_frombytes;
            check_is_on_curve], 0)
        else if ge25519_is_on_main_subgroup p_p3 =? 0 then
          ([check_is_canonical; check_has_small_order; check_frombytes;
            check_is_on_curve; check_is_on_main_subgroup], 0)
        else
          ([check_is_canonical; check_has_small_order; check_frombytes;
            check_is_on_curve; check_is_on_main_subgroup], 1)
    end.

Definition crypto_core_ed25519_is_valid_point (p : list byte) : Z :=
  snd (crypto_core_ed25519_is_valid_point_trace p).

(** What each check asks of the encoding [p]: (a) canonical, (b) not of
    small order, (c) decodes, (d) on the curve, (e) in the main subgroup. *)
Definition point_check_passes (p : list byte) (c : point_check) : bool :=
  match c with
  | check_is_canonical => negb (ge25519_is_canonical p =? 0)
  | check_has_small_order => ge25519_has_small_order p =? 0
  | check_frombytes =>
      match ge25519_frombytes p with Some _ => true | None => false end
  | check_is_on_curve =>
      match ge25519_frombytes p with
      | Some p_p3 => negb (ge25519_is_on_curve p_p3 =? 0)
      | None => false
      end
  | check_is_on_main_subgroup =>
      match ge25519_frombytes p with
      | Some p_p3 => negb (ge25519_is_on_main_subgroup p_p3 =? 0)
      | None => false
      end
  end.

(** The precondition of the group operations: the operand decodes to a
    point on the curve. *)
Definition decodes_on_curve (p : list byte) : bool :=
  point_check_passes p check_frombytes && point_check_passes p check_is_on_curve.

(** The result is the returned [int] and the content of [r]. *)
Definition crypto_core_ed25519_add (r p q : list byte) : Z * list byte :=
  match ge25519_frombytes p with
  | None => (-1, r)
  | Some p_p3 =>
      if ge25519_is_on_curve p_p3 =? 0 then (-1, r) else
      match ge25519_frombytes q with
      | None => (-1, r)
      | Some q_p3 =>
          if ge25519_is_on_curve q_p3 =? 0 then (-1, r) else
          let q_cached := ge25519_p3_to_cached q_p3 in
          let r_p1p1 := ge25519_add p_p3 q_cached in
          let r_p3 := ge25519_p1p1_to_p3 r_p1p1 in
          (0, ge25519_p3_tobytes r_p3)
      end
  end.

Definition crypto_core_ed25519_sub (r p q : list byte) : Z * list byte :=
  match ge25519_frombytes p with
  | None => (-1, r)
  | Some p_p3 =>
      if ge25519_is_on_curve p_p3 =? 0 then (-1, r) else
      match ge25519_frombytes q with
      | None => (-1, r)
      | Some q_p3 =>
          if ge25519_is_on_curve q_p3 =? 0 then (-1, r) else
          let q_cached := ge25519_p3_to_cached q_p3 in
          let r_p1p1 := ge25519_sub p_p3 q_cached in
          let r_p3 := ge25519_p1p1_to_p3 r_p1p1 in
          (0, ge25519_p3_tobytes r_p3)
      end
  end.

Definition crypto_core_ed25519_from_uniform (r : list byte) : Z * list byte :=
  (0, ge25519_from_uniform r).

Definition crypto_core_ed25519_from_hash (h : list byte) : Z * list byte :=
  (0, ge25519_from_hash h).

(** The inner loop of [_string_to_points]:
    [for (j = 0U; i > 0U && j < HASH_BYTES; j++) u[i + j] ^= u[i + j - HASH_BYTES];] *)
Definition xor_previous_block (u : list byte) (i : nat) : list byte :=
  if (0 <? i)%nat then
    fold_left
      (fun u j =>
         List.upd u (i + j)
           (byte.xor (byte_at u (i + j)) (byte_at u (i + j - HASH_BYTES))))
      (seq 0 HASH_BYTES) u
  else u.

(** One turn of the first loop of [_string_to_points], at offset [i]. *)
Definition expand_block (u0 suite ctx : list byte) (ctx_len : nat) (i : nat)
    (s : h2c_locals) : h2c_locals :=
  let u := memcpy (loc_u s) i u0 HASH_BYTES in
  let u := xor_previous_block u i in
  let st := crypto_hash_sha512_init in
  let st := crypto_hash_sha512_update st (bytes_at u i HASH_BYTES) in
  let t := List.upd (loc_t s) 2 (byte.of_Z (byte.unsigned (byte_at (loc_t s) 2) + 1)) in
  let st := crypto_hash_sha512_update st (bytes_at t 2 2) in
  let st := crypto_hash_sha512_update st suite in
  let st := crypto_hash_sha512_update st (bytes_at ctx 0 ctx_len) in
  {| loc_u := memcpy u i (crypto_hash_sha512_final st) HASH_BYTES;
     loc_t := t;
     loc_hashed := loc_hashed s ++ [st] |}.

(** [for (i = 0U; i < n * HASH_BYTES; i += HASH_BYTES)]: [k] turns are
    left and the next one is at offset [i]. *)
Fixpoint expand_loop (u0 suite ctx : list byte) (ctx_len : nat) (k i : nat)
    (s : h2c_locals) : h2c_locals :=
  match k with
  | O => s
  | S k' =>
      expand_loop u0 suite ctx ctx_len k' (i + HASH_BYTES)
        (expand_block u0 suite ctx ctx_len i s)
  end.

(** The buffer [u0] as the last loop of [_string_to_points] hands it to
    [ge25519_from_hash] in turn [i]. *)
Definition field_seed_buffer (u0 u : list byte) (i : nat) : list byte :=
  let u0 := memset u0 0 Byte.x00 (HASH_BYTES - HASH_L) in
  memcpy u0 (HASH_BYTES - HASH_L) (skipn (i * HASH_L) u) HASH_L.

(** [for (i = 0U; i < n; i++)]: [k] turns are left, the next one is [i]. *)
Fixpoint points_loop (u : list byte) (k i : nat) (u0 px : list byte)
  : list byte :=
  match k with
  | O => px
  | S k' =>
      let u0 := field_seed_buffer u0 u i in
      let px :=
        memcpy px (i * crypto_core_ed25519_BYTES) (ge25519_from_hash u0)
          crypto_core_ed25519_BYTES in
      points_loop u k' (S i) u0 px
  end.

(** [suite] holds the [suite_len] bytes the C function is given; [ctx] is
    [None] for a null pointer and otherwise the string. *)
Definition _string_to_points (px : list byte) (n : nat) (suite : list byte)
    (ctx : option (list byte)) (msg : list byte) : h2c_result :=
  let suite_len := length suite in
  let empty_block := repeat Byte.x00 128 in
  let u0 := uninit HASH_BYTES in
  let u := uninit (2 * HASH_BYTES) in
  let t := [Byte.x00; byte.of_Z (Z.of_nat (n * HASH_L)); Byte.x00; Byte.x00] in
  let ctx_len := match ctx with Some c => strlen c | None => O end in
  let ctx := match ctx with Some c => c | None => [] end in
  if (2 <? Z.of_nat n) || (255 <? Z.of_nat suite_len)
     || (255 - Z.of_nat suite_len <? Z.of_nat ctx_len) then
    {| h2c_ret := -1; h2c_out := px; h2c_hashed := [] |}
  else
    let st := crypto_hash_sha512_init in
    let st := crypto_hash_sha512_update st empty_block in
    let st := crypto_hash_sha512_update st msg in
    let t :=
      List.upd t 3
        (byte.of_Z (byte.unsigned (byte.of_Z (Z.of_nat suite_len))
                    + Z.of_nat ctx_len)) in
    let st := crypto_hash_sha512_update st (bytes_at t 0 4) in
    let st := crypto_hash_sha512_update st suite in
    let st := crypto_hash_sha512_update st (bytes_at ctx 0 ctx_len) in
    let u0 := crypto_hash_sha512_final st in
    let s :=
      expand_loop u0 suite ctx ctx_len n 0
        {| loc_u := u; loc_t := t; loc_hashed := [st] |} in
    let px := points_loop (loc_u s) n 0 u0 px in
    {| h2c_ret := 0; h2c_out := px; h2c_hashed := loc_hashed s |}.

Definition suite_NU : list byte :=
  String.list_byte_of_string "edwards25519_XMD:SHA-512_ELL2_NU_"%string.

Definition suite_RO : list byte :=
  String.list_byte_of_string "edwards25519_XMD:SHA-512_ELL2_RO_"%string.

Definition crypto_core_ed25519_from_string (p : list byte)
    (ctx : option (list byte)) (msg : list byte) : h2c_result :=
  _string_to_points p 1 suite_NU ctx msg.

Definition crypto_core_ed25519_from_string_ro (p : list byte)
    (ctx : option (list byte)) (msg : list byte) : h2c_result :=
  let px := uninit (2 * crypto_core_ed25519_BYTES) in
  let r := _string_to_points px 2 suite_RO ctx msg in
  if negb (h2c_ret r =? 0) then
    {| h2c_ret := -1; h2c_out := p; h2c_hashed := h2c_hashed r |}
  else
    let '(ret, p) :=
      crypto_core_ed25519_add p
        (bytes_at (h2c_out r) 0 crypto_core_ed25519_BYTES)
        (bytes_at (h2c_out r) crypto_core_ed25519_BYTES crypto_core_ed25519_BYTES) in
    {| h2c_ret := ret; h2c_out := p; h2c_hashed := h2c_hashed r |}.

(** The randomness source: call number [k] of [randombytes_buf] writes
    the bytes [rng k]. *)
Definition crypto_core_ed25519_random (rng : nat -> list byte) : list byte :=
  let h := memcpy (uninit crypto_core_ed25519_UNIFORMBYTES) 0 (rng O)
             crypto_core_ed25519_UNIFORMBYTES in
  snd (crypto_core_ed25519_from_uniform h).

Definition crypto_core_ed25519_scalar_invert (s : list byte) : Z * list byte :=
  let recip := sc25519_invert s in
  (- sodium_is_zero s crypto_core_ed25519_SCALARBYTES, recip).

End Core.

(** The [do ... while] of [crypto_core_ed25519_scalar_random]: the loop is
    given [fuel] turns, turn [k] draws [rng k], and [None] means that the
    turns ran out before a draw was kept. *)
Fixpoint crypto_core_ed25519_scalar_random (fuel : nat) (rng : nat -> list byte)
    (k : nat) (r : list byte) : option (list byte) :=
  match fuel with
  | O => None
  | S fuel' =>
      let r := memcpy r 0 (rng k) crypto_core_ed25519_SCALARBYTES in
      let r :=
        List.upd r (crypto_core_ed25519_SCALARBYTES - 1)
          (byte.and (byte_at r (crypto_core_ed25519_SCALARBYTES - 1)) Byte.x1f) in
      if (sc25519_is_canonical r =? 0)
         || negb (sodium_is_zero r crypto_core_ed25519_SCALARBYTES =? 0)
      then crypto_core_ed25519_scalar_random fuel' rng (S k) r
      else Some r
  end.

(** The result is the content of [r]; the final [sodium_memzero] wipes the
    local [t] after its first 32 bytes have been copied out. *)
Definition crypto_core_ed25519_scalar_reduce (s : list byte) : list byte :=
  let t := uninit crypto_core_ed25519_NONREDUCEDSCALARBYTES in
  let t := memcpy t 0 s crypto_core_ed25519_NONREDUCEDSCALARBYTES in
  let t := sc25519_reduce t in
  bytes_at t 0 crypto_core_ed25519_SCALARBYTES.

Definition crypto_core_ed25519_scalar_negate (s : list byte) : list byte :=
  let t_ := uninit crypto_core_ed25519_NONREDUCEDSCALARBYTES in
  let s_ := uninit crypto_core_ed25519_NONREDUCEDSCALARBYTES in
  let t_ := memset t_ 0 Byte.x00 crypto_core_ed25519_NONREDUCEDSCALARBYTES in
  let s_ := memset s_ 0 Byte.x00 crypto_core_ed25519_NONREDUCEDSCALARBYTES in
  let t_ := memcpy t_ crypto_core_ed25519_SCALARBYTES L crypto_core_ed25519_SCALARBYTES in
  let s_ := memcpy s_ 0 s crypto_core_ed25519_SCALARBYTES in
  let t_ := sodium_sub t_ s_ crypto_core_ed25519_NONREDUCEDSCALARBYTES in
  let t_ := sc25519_reduce t_ in
  bytes_at t_ 0 crypto_core_ed25519_SCALARBYTES.

Definition crypto_core_ed25519_scalar_complement (s : list byte) : list byte :=
  let t_ := uninit crypto_core_ed25519_NONREDUCEDSCALARBYTES in
  let s_ := uninit crypto_core_ed25519_NONREDUCEDSCALARBYTES in
  let t_ := memset t_ 0 Byte.x00 crypto_core_ed25519_NONREDUCEDSCALARBYTES in
  let s_ := memset s_ 0 Byte.x00 crypto_core_ed25519_NONREDUCEDSCALARBYTES in
  let t_ := List.upd t_ 0 (byte.of_Z (byte.unsigned (byte_at t_ 0) + 1)) in
  let t_ := memcpy t_ crypto_core_ed25519_SCALARBYTES L crypto_core_ed25519_SCALARBYTES in
  let s_ := memcpy s_ 0 s crypto_core_ed25519_SCALARBYTES in
  let t_ := sodium_sub t_ s_ crypto_core_ed25519_NONREDUCEDSCALARBYTES in
  let t_ := sc25519_reduce t_ in
  bytes_at t_ 0 crypto_core_ed25519_SCALARBYTES.

Definition crypto_core_ed25519_scalar_add (x y : list byte) : list byte :=
  let x_ := uninit crypto_core_ed25519_NONREDUCEDSCALARBYTES in
  let y_ := uninit crypto_core_ed25519_NONREDUCEDSCALARBYTES in
  let x_ := memset x_ 0 Byte.x00 crypto_core_ed25519_NONREDUCEDSCALARBYTES in
  let y_ := memset y_ 0 Byte.x00 crypto_core_ed25519_NONREDUCEDSCALARBYTES in
  let x_ := memcpy x_ 0 x crypto_core_ed25519_SCALARBYTES in
  let y_ := memcpy y_ 0 y crypto_core_ed25519_SCALARBYTES in
  let x_ := sodium_add x_ y_ crypto_core_ed25519_SCALARBYTES in
  crypto_core_ed25519_scalar_reduce x_.

Definition crypto_core_ed25519_scalar_sub (x y : list byte) : list byte :=
  let yn := crypto_core_ed25519_scalar_negate y in
  crypto_core_ed25519_scalar_add x yn.

Definition crypto_core_ed25519_scalar_mul (x y : list byte) : list byte :=
  sc25519_mul x y.

(** ** The expansion in the words of the specification *)

(** Byte-wise XOR of two blocks. *)
Fixpoint xor_bytes (a b : list byte) : list byte :=
  match a, b with
  | x :: a', y :: b' => byte.xor x y :: xor_bytes a' b'
  | _, _ => []
  end.

(** "big-endian-16": the two bytes of a 16-bit number, high byte first. *)
Definition big_endian_16 (z : Z) : list byte :=
  [byte.of_Z (Z.shiftr z 8); byte.of_Z z].

(** The one-byte tag, "len(suite)+len(ctx)". *)
Definition spec_tag (suite ctx : list byte) : byte :=
  byte.of_Z (Z.of_nat (length suite) + Z.of_nat (length ctx)).

(** The end of every hashed message as the specification has it:
    "suite || ctx || len(suite)+len(ctx)". *)
Definition spec_tail_tag_last (suite ctx : list byte) : list byte :=
  suite ++ ctx ++ [spec_tag suite ctx].

(** The same three parts with the tag in front of the suite. *)
Definition spec_tail_tag_first (suite ctx : list byte) : list byte :=
  [spec_tag suite ctx] ++ suite ++ ctx.

Section SpecExpansion.
Context {hash : crypto_hash_sha512}.

(** "128-zero-byte block || msg || big-endian-16(48 n) || 0x00 ||" and the
    tail. *)
Definition spec_u0_message (n : nat) (msg tail : list byte) : list byte :=
  repeat Byte.x00 128 ++ msg ++ big_endian_16 (Z.of_nat n * 48)
    ++ [Byte.x00] ++ tail.

(** "(u0 XOR u_{i-1} for i>0, else u0) || (i+1) ||" and the tail. *)
Fixpoint spec_block_message (u0 tail : list byte) (i : nat) : list byte :=
  match i with
  | O => u0
  | S j => xor_bytes u0 (sha512 (spec_block_message u0 tail j))
  end ++ [byte.of_Z (Z.of_nat i + 1)] ++ tail.

(** The message of u0 followed by the messages of u_0 ... u_{n-1}. *)
Definition spec_hashed (n : nat) (msg tail : list byte) : list (list byte) :=
  let m0 := spec_u0_message n msg tail in
  m0 :: map (spec_block_message (sha512 m0) tail) (seq 0 n).
End SpecExpansion.

(** The string a [const char *ctx] stands for. *)
Definition ctx_string (ctx : option (list byte)) : list byte :=
  match ctx with
  | Some c => firstn (strlen c) c
  | None => []
  end.

(** The first test of [_string_to_points]: "n > 2, len(suite) > 255, or
    len(ctx) > 255 - len(suite)". *)
Definition h2c_rejects (n : nat) (suite : list byte) (ctx : option (list byte))
  : Prop :=
  2 < Z.of_nat n
  \/ 255 < Z.of_nat (length suite)
  \/ 255 - Z.of_nat (length suite) < Z.of_nat (length (ctx_string ctx)).

(** A draw of the randomness source after
    [r[crypto_core_ed25519_SCALARBYTES - 1] &= 0x1f]. *)
Definition scalar_candidate (draw : list byte) : list byte :=
  List.upd draw 31 (byte.and (byte_at draw 31) Byte.x1f).

(** The primitives [ref10] with other answers to the three questions that
    only the validator asks. *)
Definition with_point_checks (ref10 : ed25519_ref10)
    (is_canonical has_small_order : list byte -> Z)
    (is_on_main_subgroup : @ge25519_p3 ref10 -> Z) : ed25519_ref10 := {|
  ge25519_p3 := @ge25519_p3 ref10;
  ge25519_p1p1 := @ge25519_p1p1 ref10;
  ge25519_cached := @ge25519_cached ref10;
  ge25519_is_canonical := is_canonical;
  ge25519_has_small_order := has_small_order;
  ge25519_frombytes := @ge25519_frombytes ref10;
  ge25519_is_on_curve := @ge25519_is_on_curve ref10;
  ge25519_is_on_main_subgroup := is_on_main_subgroup;
  ge25519_p3_to_cached := @ge25519_p3_to_cached ref10;
  ge25519_add := @ge25519_add ref10;
  ge25519_sub := @ge25519_sub ref10;
  ge25519_p1p1_to_p3 := @ge25519_p1p1_to_p3 ref10;
  ge25519_p3_tobytes := @ge25519_p3_tobytes ref10;
  ge25519_from_uniform := @ge25519_from_uniform ref10;
  ge25519_from_hash := @ge25519_from_hash ref10;
  sc25519_invert := @sc25519_invert ref10
|}.

(** ** An instance of the interfaces, to run the functions on inputs *)

(** A stand-in for SHA-512 with digests of 64 bytes: a 64-bit running sum of
    the message, spread over the 64 bytes by a multiplication. *)
Definition demo_sha512 (m : list byte) : list byte :=
  le_split 64
    (fold_left
       (fun h b =>
          (h * 1099511628211 + byte.unsigned b + 1) mod 18446744073709551557)
       m 14695981039346656037
     * 3141592653589793238462643383279502884197169399375105820974944592307816406286208998628034825342117067982148086513282306647093844609550582231).

Definition demo_hash : crypto_hash_sha512 := {| sha512 := demo_sha512 |}.

(** A stand-in for the group: the integers modulo [8 * (2^127 - 1)], a
    cyclic group with a subgroup of prime order [2^127 - 1] and cofactor 8.
    An element is encoded as a 32-byte little-endian number. *)
Definition demo_q : Z := 2 ^ 127 - 1.
Definition demo_order : Z := 8 * demo_q.

Definition demo_ref10 : ed25519_ref10 := {|
  ge25519_p3 := Z;
  ge25519_p1p1 := Z;
  ge25519_cached := Z;
  ge25519_is_canonical := fun p =>
    if le_combine (firstn 32 p) <? demo_order then 1 else 0;
  ge25519_has_small_order := fun p =>
    if le_combine (firstn 32 p) mod demo_q =? 0 then 1 else 0;
  ge25519_frombytes := fun p =>
    if le_combine (firstn 32 p) <? 2 ^ 255
    then Some (le_combine (firstn 32 p)) else None;
  ge25519_is_on_curve := fun P => if P <? demo_order then 1 else 0;
  ge25519_is_on_main_subgroup := fun P => if P mod 8 =? 0 then 1 else 0;
  ge25519_p3_to_cached := fun P => P;
  ge25519_add := fun P Q => (P + Q) mod demo_order;
  ge25519_sub := fun P Q => (P - Q) mod demo_order;
  ge25519_p1p1_to_p3 := fun P => P;
  ge25519_p3_tobytes := fun P => le_split 32 P;
  ge25519_from_uniform := fun r => le_split 32 (8 * (le_combine r mod demo_q));
  ge25519_from_hash := fun h => le_split 32 (8 * (le_combine h mod demo_q));
  sc25519_invert := fun s =>
    le_split 32 (Zpow_mod (le_combine (firstn 32 s)) (ell - 2) ell)
|}.

(** Inputs for the examples: the message "abc", the context "ctx" with its
    terminator, a randomness source whose draw number [k] is 32 bytes equal
    to [k], and the scalar L - 1. *)
Definition demo_msg : list byte := [Byte.x61; Byte.x62; Byte.x63].

Definition demo_ctx : option (list byte) :=
  Some [Byte.x63; Byte.x74; Byte.x78; Byte.x00].

Definition demo_rng (k : nat) : list byte := repeat (byte.of_Z (Z.of_nat k)) 32.

Definition L_minus_1 : list byte :=
  [ Byte.xec; Byte.xd3; Byte.xf5; Byte.x5c; Byte.x1a; Byte.x63; Byte.x12; Byte.x58;
    Byte.xd6; Byte.x9c; Byte.xf7; Byte.xa2; Byte.xde; Byte.xf9; Byte.xde; Byte.x14;
    Byte.x00; Byte.x00; Byte.x00; Byte.x00; Byte.x00; Byte.x00; Byte.x00; Byte.x00;
    Byte.x00; Byte.x00; Byte.x00; Byte.x00; Byte.x00; Byte.x00; Byte.x00; Byte.x10 ].

(** The two expansions run on these inputs. *)
Definition demo_nu : h2c_result :=
  @_string_to_points demo_hash demo_ref10 (uninit 32) 1 suite_NU demo_ctx demo_msg.

Definition demo_ro : h2c_result :=
  @_string_to_points demo_hash demo_ref10 (uninit 64) 2 suite_RO demo_ctx demo_msg.

(** * Little-endian numbers *)

Lemma le_combine_cons (h : byte) (t : list byte) :
  le_combine (h :: t) = byte.unsigned h + 256 * le_combine t.
Proof.
  change (le_combine (h :: t))
    with (Z.lor (byte.unsigned h) (Z.shiftl (le_combine t) 8)).
  rewrite <- (Z.add_lor_land (byte.unsigned h) (256 * le_combine t)).
  rewrite Z.shiftl_mul_pow2 by lia.
  replace (le_combine t * 2 ^ 8) with (256 * le_combine t) by lia.
  enough (Z.land (byte.unsigned h) (256 * le_combine t) = 0) by lia.
  apply Z.bits_inj'. intros n Hn.
  rewrite Z.land_spec, Z.bits_0.
  destruct (Z.ltb_spec n 8).
  - replace (256 * le_combine t) with (le_combine t * 2 ^ 8) by lia.
    rewrite Z.mul_pow2_bits_low by lia. apply andb_false_r.
  - rewrite <- (byte.wrap_unsigned h). unfold byte.wrap.
    rewrite Z.mod_pow2_bits_high by lia. reflexivity.
Qed.

Lemma le_combine_nonneg (l : list byte) : 0 <= le_combine l.
Proof. apply le_combine_bound. Qed.

Lemma le_combine_app_add (a b : list byte) :
  le_combine (a ++ b) = le_combine a + 2 ^ (8 * Z.of_nat (length a)) * le_combine b.
Proof.
  induction a as [|h a IH].
  - cbn [app length]. rewrite le_combine_nil. change (8 * Z.of_nat 0) with 0. lia.
  - cbn [app]. rewrite !le_combine_cons, IH. cbn [length].
    replace (8 * Z.of_nat (S (length a))) with (8 + 8 * Z.of_nat (length a)) by lia.
    rewrite Z.pow_add_r by lia. lia.
Qed.

Lemma le_combine_lt (l : list byte) (n : nat) :
  length l = n -> 0 <= le_combine l < 2 ^ (8 * Z.of_nat n).
Proof. intros <-. apply le_combine_bound. Qed.

Lemma sodium_add_loop_length (a : list byte) :
  forall b c, length a = length b -> length (sodium_add_loop a b c) = length a.
Proof.
  induction a as [|ai a IH]; intros [|bi b] c Hl; cbn in *; try lia.
  rewrite IH; lia.
Qed.

Lemma sodium_add_loop_value (a : list byte) :
  forall b c, length a = length b ->
    le_combine (sodium_add_loop a b c)
    = (le_combine a + le_combine b + c) mod 2 ^ (8 * Z.of_nat (length a)).
Proof.
  induction a as [|ai a IH]; intros [|bi b] c Hl; cbn [length] in Hl; try lia.
  - cbn. rewrite Z.mod_1_r. reflexivity.
  - cbn [sodium_add_loop length].
    rewrite !le_combine_cons, IH by lia.
    rewrite byte.unsigned_of_Z. unfold byte.wrap.
    rewrite Z.shiftr_div_pow2 by lia.
    replace (8 * Z.of_nat (S (length a))) with (8 + 8 * Z.of_nat (length a)) by lia.
    rewrite Z.pow_add_r by lia.
    set (M := 2 ^ (8 * Z.of_nat (length a))).
    assert (0 < M) by (apply Z.pow_pos_nonneg; lia).
    set (c' := c + byte.unsigned ai + byte.unsigned bi).
    replace (byte.unsigned ai + 256 * le_combine a + (byte.unsigned bi + 256 * le_combine b) + c)
      with (c' + (le_combine a + le_combine b) * 2 ^ 8) by (subst c'; lia).
    rewrite Z.rem_mul_r by lia.
    rewrite Z.mod_add by lia. rewrite Z.div_add by lia.
    change (2 ^ 8) with 256.
    f_equal. f_equal. f_equal. lia.
Qed.

Lemma sodium_sub_loop_length (a : list byte) :
  forall b c, length a = length b -> length (sodium_sub_loop a b c) = length a.
Proof.
  induction a as [|ai a IH]; intros [|bi b] c Hl; cbn in *; try lia.
  rewrite IH; lia.
Qed.

Lemma sodium_sub_loop_value (a : list byte) :
  forall b c, length a = length b -> 0 <= c <= 1 ->
    le_combine (sodium_sub_loop a b c)
    = (le_combine a - le_combine b - c) mod 2 ^ (8 * Z.of_nat (length a)).
Proof.
  induction a as [|ai a IH]; intros [|bi b] c Hl Hc; cbn [length] in Hl; try lia.
  - cbn. rewrite Z.mod_1_r. reflexivity.
  - cbn [sodium_sub_loop length].
    pose proof (byte.unsigned_range ai) as Ha.
    pose proof (byte.unsigned_range bi) as Hb.
    change (2 ^ 8) with 256 in Ha, Hb.
    set (c' := byte.unsigned ai - byte.unsigned bi - c).
    assert (Hdiv : c' / 256 = 0 \/ c' / 256 = -1)
      by (subst c'; Z.div_mod_to_equations; lia).
    assert (Hborrow : Z.land (Z.shiftr c' 8) 1 = - (c' / 256)).
    { rewrite Z.shiftr_div_pow2 by lia. change (2 ^ 8) with 256.
      destruct Hdiv as [-> | ->]; reflexivity. }
    rewrite !le_combine_cons, IH by (rewrite ?Hborrow; lia).
    rewrite Hborrow.
    rewrite byte.unsigned_of_Z. unfold byte.wrap.
    replace (8 * Z.of_nat (S (length a))) with (8 + 8 * Z.of_nat (length a)) by lia.
    rewrite Z.pow_add_r by lia.
    set (M := 2 ^ (8 * Z.of_nat (length a))).
    assert (0 < M) by (apply Z.pow_pos_nonneg; lia).
    replace (byte.unsigned ai + 256 * le_combine a - (byte.unsigned bi + 256 * le_combine b) - c)
      with (c' + (le_combine a - le_combine b) * 2 ^ 8) by (subst c'; lia).
    rewrite Z.rem_mul_r by lia.
    rewrite Z.mod_add by lia. rewrite Z.div_add by lia.
    change (2 ^ 8) with 256.
    f_equal. f_equal. f_equal. lia.
Qed.

(** * The helpers of utils.c and the scalar ring *)

Lemma lor_byte_range (a b : Z) :
  0 <= a < 2 ^ 8 -> 0 <= b < 2 ^ 8 -> 0 <= Z.lor a b < 2 ^ 8.
Proof.
  intros Ha Hb.
  assert (E : Z.lor a b = Z.lor a b mod 2 ^ 8).
  { rewrite <- Z.land_ones, Z.land_lor_distr_l, !Z.land_ones by lia.
    rewrite !Z.mod_small by lia. reflexivity. }
  rewrite E. apply Z.mod_pos_bound. lia.
Qed.

Lemma le_combine_eq_0_cons (h : byte) (t : list byte) :
  le_combine (h :: t) = 0 <-> byte.unsigned h = 0 /\ le_combine t = 0.
Proof.
  rewrite le_combine_cons.
  pose proof (byte.unsigned_range h). pose proof (le_combine_nonneg t). lia.
Qed.

Lemma fold_lor_bytes (l : list byte) :
  forall d, 0 <= d < 2 ^ 8 ->
    let r := fold_left (fun d b => Z.lor d (byte.unsigned b)) l d in
    0 <= r < 2 ^ 8 /\ (r = 0 <-> d = 0 /\ le_combine l = 0).
Proof.
  induction l as [|h t IH]; intros d Hd; cbn [fold_left].
  - rewrite le_combine_nil. intuition lia.
  - pose proof (byte.unsigned_range h) as Hh.
    destruct (IH (Z.lor d (byte.unsigned h)) (lor_byte_range _ _ Hd Hh)) as [Hr Hz].
    split; [exact Hr|].
    cbv zeta in Hz. rewrite Hz, Z.lor_eq_0_iff, le_combine_eq_0_cons. tauto.
Qed.

Lemma sodium_is_zero_spec (n : list byte) (nlen : nat) :
  sodium_is_zero n nlen = if le_combine (firstn nlen n) =? 0 then 1 else 0.
Proof.
  unfold sodium_is_zero.
  destruct (fold_lor_bytes (firstn nlen n) 0 ltac:(lia)) as [Hr Hz].
  cbv zeta in Hr, Hz.
  set (d := fold_left _ _ _) in *.
  destruct (Z.eqb_spec (le_combine (firstn nlen n)) 0) as [E | E].
  - assert (d = 0) as -> by tauto. reflexivity.
  - assert (d <> 0) by tauto.
    rewrite Z.shiftr_div_pow2 by lia.
    rewrite Z.div_small by lia. reflexivity.
Qed.

(** Buffers *)

Lemma firstn_upds_0 (t v : list byte) (n : nat) :
  length v = n -> (n <= length t)%nat -> firstn n (List.upds t 0 v) = v.
Proof.
  intros Hv Ht. unfold List.upds. cbn [firstn app].
  rewrite Nat.sub_0_r, (firstn_all2 (n := length t)) by lia.
  rewrite firstn_app, firstn_all2 by lia.
  replace (n - length v)%nat with O by lia. cbn. apply app_nil_r.
Qed.

Lemma firstn_app_exact (x z : list byte) (n : nat) :
  length x = n -> firstn n (x ++ z) = x.
Proof.
  intros <-. rewrite firstn_app, Nat.sub_diag, firstn_all. cbn. apply app_nil_r.
Qed.

Lemma skipn_app_exact (x z : list byte) (n : nat) :
  length x = n -> skipn n (x ++ z) = z.
Proof.
  intros <-. rewrite skipn_app, Nat.sub_diag, skipn_all by lia. reflexivity.
Qed.

Lemma zero_extend (s : list byte) :
  length s = 32%nat ->
  memcpy (memset (uninit 64) 0 Byte.x00 64) 0 s 32 = s ++ repeat Byte.x00 32.
Proof.
  intros Hs. change (memset (uninit 64) 0 Byte.x00 64) with (repeat Byte.x00 64).
  unfold memcpy, List.upds.
  rewrite (firstn_all2 (n := 32) s) by lia.
  rewrite repeat_length, Hs.
  rewrite (firstn_all2 (n := (64 - 0)%nat) s) by (rewrite Hs; cbn; lia).
  reflexivity.
Qed.

Lemma le_combine_zero_extend (s : list byte) (n : nat) :
  le_combine (s ++ repeat Byte.x00 n) = le_combine s.
Proof. apply le_combine_app_0. Qed.

Lemma ell_eq : le_combine L = ell.
Proof. vm_compute. reflexivity. Qed.

Lemma ell_range : 2 ^ 252 < ell < 2 ^ 253.
Proof. unfold ell. lia. Qed.

Lemma scalar_reduce_spec (s : list byte) :
  length s = 64%nat ->
  crypto_core_ed25519_scalar_reduce s = le_split 32 (le_combine s mod ell).
Proof.
  intros Hs. unfold crypto_core_ed25519_scalar_reduce, memcpy, sc25519_reduce, bytes_at.
  change crypto_core_ed25519_NONREDUCEDSCALARBYTES with 64%nat.
  change crypto_core_ed25519_SCALARBYTES with 32%nat.
  rewrite (firstn_all2 (n := 64) s) by lia.
  rewrite (List.upds_replace _ (uninit 64) s) by (rewrite Hs; reflexivity).
  rewrite (firstn_all2 (n := 64) s) by lia.
  cbn [skipn]. apply firstn_upds_0; [apply length_le_split | lia].
Qed.

Lemma scalar_add_spec (x y : list byte) :
  length x = 32%nat -> length y = 32%nat ->
  crypto_core_ed25519_scalar_add x y
  = le_split 32 (((le_combine x + le_combine y) mod 2 ^ 256) mod ell).
Proof.
  intros Hx Hy. unfold crypto_core_ed25519_scalar_add.
  change crypto_core_ed25519_NONREDUCEDSCALARBYTES with 64%nat.
  change crypto_core_ed25519_SCALARBYTES with 32%nat.
  rewrite !zero_extend by assumption.
  unfold sodium_add.
  rewrite !firstn_app_exact, skipn_app_exact by assumption.
  rewrite scalar_reduce_spec
    by (rewrite length_app, sodium_add_loop_length, Hx by lia; reflexivity).
  rewrite le_combine_zero_extend, sodium_add_loop_value, Hx by lia.
  rewrite Z.add_0_r. reflexivity.
Qed.

Lemma negate_minuend :
  memcpy (memset (uninit 64) 0 Byte.x00 64) 32 L 32 = repeat Byte.x00 32 ++ L.
Proof. vm_compute. reflexivity. Qed.

Lemma complement_minuend :
  let t_ := memset (uninit 64) 0 Byte.x00 64 in
  memcpy (List.upd t_ 0 (byte.of_Z (byte.unsigned (byte_at t_ 0) + 1))) 32 L 32
  = Byte.x01 :: repeat Byte.x00 31 ++ L.
Proof. vm_compute. reflexivity. Qed.

Lemma sodium_sub_64 (t_ s_ : list byte) :
  length t_ = 64%nat -> length s_ = 64%nat ->
  length (sodium_sub t_ s_ 64) = 64%nat /\
  le_combine (sodium_sub t_ s_ 64) = (le_combine t_ - le_combine s_) mod 2 ^ 512.
Proof.
  intros Ht Hs. unfold sodium_sub.
  rewrite !firstn_all2, skipn_all2, app_nil_r by lia.
  rewrite sodium_sub_loop_length, sodium_sub_loop_value, Ht by lia.
  rewrite Z.sub_0_r. split; reflexivity.
Qed.

Lemma reduce_after_sub (t_ s_ : list byte) :
  length t_ = 64%nat -> length s_ = 64%nat ->
  bytes_at (sc25519_reduce (sodium_sub t_ s_ 64)) 0 32
  = le_split 32 (((le_combine t_ - le_combine s_) mod 2 ^ 512) mod ell).
Proof.
  intros Ht Hs.
  destruct (sodium_sub_64 t_ s_ Ht Hs) as [Hlen Hval].
  unfold sc25519_reduce, bytes_at. cbn [skipn].
  rewrite (firstn_all2 (n := 64)) by lia.
  rewrite Hval. apply firstn_upds_0; [apply length_le_split | lia].
Qed.

Lemma scalar_negate_spec (s : list byte) :
  length s = 32%nat ->
  crypto_core_ed25519_scalar_negate s = le_split 32 ((- le_combine s) mod ell).
Proof.
  intros Hs. unfold crypto_core_ed25519_scalar_negate.
  change crypto_core_ed25519_NONREDUCEDSCALARBYTES with 64%nat.
  change crypto_core_ed25519_SCALARBYTES with 32%nat.
  rewrite zero_extend, negate_minuend by assumption.
  rewrite reduce_after_sub by (rewrite ?length_app, ?Hs; reflexivity).
  f_equal.
  rewrite le_combine_zero_extend, le_combine_app_add, le_combine_0, ell_eq.
  pose proof (le_combine_lt s 32 Hs) as Hb. pose proof ell_range.
  change (length (repeat Byte.x00 32)) with 32%nat.
  change (8 * Z.of_nat 32) with 256 in *.
  rewrite (Z.mod_small _ (2 ^ 512)) by lia.
  replace (0 + 2 ^ 256 * ell - le_combine s) with (- le_combine s + 2 ^ 256 * ell) by lia.
  apply Z.mod_add. lia.
Qed.

Lemma scalar_complement_spec (s : list byte) :
  length s = 32%nat ->
  crypto_core_ed25519_scalar_complement s = le_split 32 ((1 - le_combine s) mod ell).
Proof.
  intros Hs. unfold crypto_core_ed25519_scalar_complement.
  change crypto_core_ed25519_NONREDUCEDSCALARBYTES with 64%nat.
  change crypto_core_ed25519_SCALARBYTES with 32%nat.
  rewrite zero_extend by assumption.
  rewrite complement_minuend.
  rewrite reduce_after_sub by (rewrite ?length_app, ?Hs; reflexivity).
  f_equal.
  rewrite le_combine_zero_extend.
  change (Byte.x01 :: repeat Byte.x00 31 ++ L)
    with ((Byte.x01 :: repeat Byte.x00 31) ++ L).
  rewrite le_combine_app_add, ell_eq.
  change (le_combine (Byte.x01 :: repeat Byte.x00 31)) with 1.
  pose proof (le_combine_lt s 32 Hs) as Hb. pose proof ell_range.
  change (length (Byte.x01 :: repeat Byte.x00 31)) with 32%nat.
  change (8 * Z.of_nat 32) with 256 in *.
  rewrite (Z.mod_small _ (2 ^ 512)) by lia.
  replace (1 + 2 ^ 256 * ell - le_combine s) with (1 - le_combine s + 2 ^ 256 * ell) by lia.
  apply Z.mod_add. lia.
Qed.

Lemma le_combine_le_split_small (z : Z) :
  0 <= z < ell -> le_combine (le_split 32 z) = z.
Proof.
  intros Hz. rewrite le_combine_split. pose proof ell_range.
  apply Z.mod_small. change (Z.of_nat 32 * 8) with 256. lia.
Qed.

(** C9.  For every canonical scalar [x] (32 bytes, value below L)
    [scalar_add x (scalar_negate x)] is the all-zero scalar and
    [scalar_add x (scalar_complement x)] is the encoding of 1. *)
Theorem negate_complement_cancel (x : list byte) :
  length x = 32%nat -> le_combine x < ell ->
  crypto_core_ed25519_scalar_add x (crypto_core_ed25519_scalar_negate x)
    = repeat Byte.x00 32
  /\ crypto_core_ed25519_scalar_add x (crypto_core_ed25519_scalar_complement x)
    = Byte.x01 :: repeat Byte.x00 31.
Proof.
  intros Hx Hc.
  pose proof (le_combine_nonneg x) as H0. pose proof ell_range as Hl.
  assert (Hn : 0 <= (- le_combine x) mod ell < ell) by (apply Z.mod_pos_bound; lia).
  assert (Hm : 0 <= (1 - le_combine x) mod ell < ell) by (apply Z.mod_pos_bound; lia).
  rewrite scalar_negate_spec, scalar_complement_spec by assumption.
  rewrite !scalar_add_spec by (assumption || apply length_le_split).
  rewrite !le_combine_le_split_small by assumption.
  rewrite !(Z.mod_small _ (2 ^ 256)) by lia.
  rewrite !Z.add_mod_idemp_r by lia.
  replace (le_combine x + - le_combine x) with 0 by lia.
  replace (le_combine x + (1 - le_combine x)) with 1 by lia.
  rewrite Z.mod_0_l, Z.mod_1_l by lia.
  split; reflexivity.
Qed.

Lemma le_combine_eq_0 (s : list byte) :
  le_combine s = 0 <-> s = repeat Byte.x00 (length s).
Proof.
  split; intros H.
  - apply le_combine_inj; [now rewrite repeat_length|].
    now rewrite le_combine_0.
  - rewrite H. apply le_combine_0.
Qed.

Lemma scalar_add_length (x y : list byte) :
  length x = 32%nat -> length y = 32%nat ->
  length (crypto_core_ed25519_scalar_add x y) = 32%nat.
Proof. intros. rewrite scalar_add_spec by assumption. apply length_le_split. Qed.

Lemma scalar_negate_length (s : list byte) :
  length s = 32%nat -> length (crypto_core_ed25519_scalar_negate s) = 32%nat.
Proof. intros. rewrite scalar_negate_spec by assumption. apply length_le_split. Qed.

(** C1.  [crypto_core_ed25519_scalar_add] adds the two operands over 32
    bytes only: it returns ((x + y) mod 2^256) mod L.  For x = 2^256 - 1 and
    y = 1 the exact sum is 2^256, whose residue mod L is not 0, yet the
    function returns the all-zero scalar. *)
Theorem scalar_add_loses_carry :
  (forall x y, length x = 32%nat -> length y = 32%nat ->
     crypto_core_ed25519_scalar_add x y
     = le_split 32 (((le_combine x + le_combine y) mod 2 ^ 256) mod ell))
  /\ (let x := repeat Byte.xff 32 in
      let y := Byte.x01 :: repeat Byte.x00 31 in
      crypto_core_ed25519_scalar_add x y = repeat Byte.x00 32
      /\ (le_combine x + le_combine y) mod ell
         = 7237005577332262213973186563042994240413239274941949949428319933631315875101
      /\ crypto_core_ed25519_scalar_add x y
         <> le_split 32 ((le_combine x + le_combine y) mod ell)).
Proof.
  split; [exact scalar_add_spec|].
  cbv zeta. split; [|split].
  - vm_compute. reflexivity.
  - vm_compute. reflexivity.
  - vm_compute. discriminate.
Qed.

Section Invert.
Context {ref10 : ed25519_ref10}.

Lemma scalar_invert_spec (s : list byte) :
  length s = 32%nat ->
  crypto_core_ed25519_scalar_invert s
  = (if le_combine s =? 0 then -1 else 0, sc25519_invert s).
Proof.
  intros Hs. unfold crypto_core_ed25519_scalar_invert.
  change crypto_core_ed25519_SCALARBYTES with 32%nat.
  rewrite sodium_is_zero_spec, firstn_all2 by lia.
  destruct (le_combine s =? 0); reflexivity.
Qed.

(** C7.  [crypto_core_ed25519_scalar_invert] always hands back in [recip]
    what [sc25519_invert] computes; it returns -1 when the 32 input bytes
    are all zero and 0 for every other input.  The other operations of the
    scalar ring return no status and give a 32-byte scalar for all inputs of
    the declared sizes. *)
Theorem scalar_invert_signals_zero (s : list byte) :
  length s = 32%nat ->
  snd (crypto_core_ed25519_scalar_invert s) = sc25519_invert s
  /\ (s = repeat Byte.x00 32 -> fst (crypto_core_ed25519_scalar_invert s) = -1)
  /\ (s <> repeat Byte.x00 32 -> fst (crypto_core_ed25519_scalar_invert s) = 0)
  /\ (forall x y, length x = 32%nat -> length y = 32%nat ->
        length (crypto_core_ed25519_scalar_add x y) = 32%nat
        /\ length (crypto_core_ed25519_scalar_sub x y) = 32%nat
        /\ length (crypto_core_ed25519_scalar_mul x y) = 32%nat
        /\ length (crypto_core_ed25519_scalar_negate x) = 32%nat
        /\ length (crypto_core_ed25519_scalar_complement x) = 32%nat)
  /\ (forall w, length w = 64%nat ->
        length (crypto_core_ed25519_scalar_reduce w) = 32%nat).
Proof.
  intros Hs. rewrite scalar_invert_spec by assumption. cbn [fst snd].
  split; [reflexivity|]. split; [|split; [|split]].
  - intros ->. reflexivity.
  - intros Hne. destruct (Z.eqb_spec (le_combine s) 0) as [E|E]; [|reflexivity].
    apply le_combine_eq_0 in E. rewrite Hs in E. contradiction.
  - intros x y Hx Hy. unfold crypto_core_ed25519_scalar_sub, crypto_core_ed25519_scalar_mul.
    rewrite (scalar_complement_spec x Hx).
    repeat split; try apply length_le_split.
    + apply scalar_add_length; assumption.
    + apply scalar_add_length; [assumption | apply scalar_negate_length; assumption].
    + apply scalar_negate_length; assumption.
  - intros w Hw. rewrite scalar_reduce_spec by assumption. apply length_le_split.
Qed.

(** C10.  For a nonzero 32-byte string whose value is a multiple of L,
    [crypto_core_ed25519_scalar_invert] returns 0 (success), although no
    32-byte string at all encodes an inverse of it modulo L. *)
Theorem scalar_invert_accepts_multiples_of_L (s : list byte) :
  length s = 32%nat -> s <> repeat Byte.x00 32 -> le_combine s mod ell = 0 ->
  fst (crypto_core_ed25519_scalar_invert s) = 0
  /\ snd (crypto_core_ed25519_scalar_invert s) = sc25519_invert s
  /\ forall recip : list byte, (le_combine s * le_combine recip) mod ell <> 1.
Proof.
  intros Hs Hne Hmod. rewrite scalar_invert_spec by assumption. cbn [fst snd].
  split; [|split; [reflexivity|]].
  - destruct (Z.eqb_spec (le_combine s) 0) as [E|E]; [|reflexivity].
    apply le_combine_eq_0 in E. rewrite Hs in E. contradiction.
  - intros recip. rewrite Z.mul_mod, Hmod by (unfold ell; lia).
    rewrite Z.mul_0_l, Z.mod_0_l by (unfold ell; lia). lia.
Qed.
End Invert.

(** Random scalars *)

Lemma scalar_candidate_length (d : list byte) :
  length (scalar_candidate d) = length d.
Proof. apply List.upd_length. Qed.

Lemma byte_and_1f_range (b : byte) : 0 <= byte.unsigned (byte.and b Byte.x1f) < 32.
Proof.
  unfold byte.and. rewrite byte.unsigned_of_Z. unfold byte.wrap.
  change (byte.unsigned Byte.x1f) with (Z.ones 5).
  rewrite Z.land_ones by lia.
  pose proof (Z.mod_pos_bound (byte.unsigned b) (2 ^ 5) ltac:(lia)).
  rewrite Z.mod_small; lia.
Qed.

Lemma scalar_candidate_bound (d : list byte) :
  length d = 32%nat -> 0 <= le_combine (scalar_candidate d) < 2 ^ 253.
Proof.
  intros Hd. unfold scalar_candidate.
  rewrite List.upd_firstn_skipn by lia.
  rewrite (List.skipn_all 32 d) by lia. cbn [app].
  rewrite le_combine_app_add, le_combine_1.
  rewrite length_firstn, Hd. change (Nat.min 31 32) with 31%nat.
  pose proof (le_combine_lt (firstn 31 d) 31 ltac:(rewrite length_firstn; lia)).
  pose proof (byte_and_1f_range (byte_at d 31)).
  change (8 * Z.of_nat 31) with 248 in *. lia.
Qed.

Lemma scalar_random_draw (r draw : list byte) :
  length r = 32%nat -> length draw = 32%nat ->
  List.upd (memcpy r 0 draw crypto_core_ed25519_SCALARBYTES)
    (crypto_core_ed25519_SCALARBYTES - 1)
    (byte.and
       (byte_at (memcpy r 0 draw crypto_core_ed25519_SCALARBYTES)
          (crypto_core_ed25519_SCALARBYTES - 1)) Byte.x1f)
  = scalar_candidate draw.
Proof.
  intros Hr Hd. unfold memcpy.
  change crypto_core_ed25519_SCALARBYTES with 32%nat.
  rewrite (firstn_all2 (n := 32) draw) by lia.
  rewrite List.upds_replace by lia. reflexivity.
Qed.

Lemma scalar_random_test (r : list byte) :
  length r = 32%nat ->
  (sc25519_is_canonical r =? 0)
  || negb (sodium_is_zero r crypto_core_ed25519_SCALARBYTES =? 0) = false
  <-> 0 < le_combine r < ell.
Proof.
  intros Hr. unfold sc25519_is_canonical.
  rewrite sodium_is_zero_spec.
  change crypto_core_ed25519_SCALARBYTES with 32%nat.
  rewrite (firstn_all2 (n := 32) r) by lia.
  pose proof (le_combine_nonneg r).
  destruct (Z.ltb_spec (le_combine r) ell), (Z.eqb_spec (le_combine r) 0);
    unfold ell in *; cbn; intuition (discriminate || lia).
Qed.

(** C8.  Whenever the loop of [crypto_core_ed25519_scalar_random] returns,
    the 32 bytes returned are a number that is nonzero, below L and below
    2^253; and it returns exactly the first draw that, with the top three
    bits of its last byte cleared, is nonzero and below L, provided that draw
    comes within the turns allowed. *)
Theorem scalar_random_canonical_nonzero (fuel : nat) (rng : nat -> list byte)
    (k : nat) (r0 r : list byte) :
  (forall j, length (rng j) = 32%nat) -> length r0 = 32%nat ->
  (crypto_core_ed25519_scalar_random fuel rng k r0 = Some r ->
     length r = 32%nat /\ 0 < le_combine r < ell /\ le_combine r < 2 ^ 253)
  /\ (crypto_core_ed25519_scalar_random fuel rng k r0 = Some r <->
      exists j, (j < fuel)%nat
        /\ r = scalar_candidate (rng (k + j)%nat)
        /\ 0 < le_combine r < ell
        /\ forall i, (i < j)%nat ->
             ~ 0 < le_combine (scalar_candidate (rng (k + i)%nat)) < ell).
Proof.
  intros Hrng Hr0.
  assert (Hiff : crypto_core_ed25519_scalar_random fuel rng k r0 = Some r <->
      exists j, (j < fuel)%nat
        /\ r = scalar_candidate (rng (k + j)%nat)
        /\ 0 < le_combine r < ell
        /\ forall i, (i < j)%nat ->
             ~ 0 < le_combine (scalar_candidate (rng (k + i)%nat)) < ell).
  { revert k r0 Hr0. induction fuel as [|fuel IH]; intros k r0 Hr0.
    - cbn. split; [discriminate | intros (j & Hj & _); lia].
    - cbn [crypto_core_ed25519_scalar_random]. cbv zeta.
      rewrite (scalar_random_draw r0 (rng k) Hr0 (Hrng k)).
      assert (Hc : length (scalar_candidate (rng k)) = 32%nat)
        by (rewrite scalar_candidate_length; apply Hrng).
      pose proof (scalar_random_test _ Hc) as Ht.
      destruct ((sc25519_is_canonical (scalar_candidate (rng k)) =? 0)
                || negb (sodium_is_zero (scalar_candidate (rng k))
                           crypto_core_ed25519_SCALARBYTES =? 0)) eqn:E.
      + assert (Hrej : ~ 0 < le_combine (scalar_candidate (rng k)) < ell)
          by (intros Hacc; apply Ht in Hacc; discriminate).
        rewrite (IH (S k) _ Hc). split.
        * intros (j & Hj & Hrj & Hacc & Hprev). exists (S j).
          replace (k + S j)%nat with (S k + j)%nat by lia.
          repeat split; try assumption; try lia.
          intros [|i] Hi.
          -- rewrite Nat.add_0_r. exact Hrej.
          -- replace (k + S i)%nat with (S k + i)%nat by lia. apply Hprev. lia.
        * intros (j & Hj & Hrj & Hacc & Hprev). destruct j as [|j].
          -- rewrite Nat.add_0_r in Hrj. subst r. contradiction.
          -- exists j. replace (S k + j)%nat with (k + S j)%nat by lia.
             repeat split; try assumption; try lia.
             intros i Hi. replace (S k + i)%nat with (k + S i)%nat by lia.
             apply Hprev. lia.
      + assert (Hacc : 0 < le_combine (scalar_candidate (rng k)) < ell)
          by (apply Ht; reflexivity).
        split.
        * intros [= <-]. exists O. rewrite Nat.add_0_r.
          repeat split; try lia.
        * intros (j & Hj & Hrj & Hacc' & Hprev). destruct j as [|j].
          -- rewrite Nat.add_0_r in Hrj. now subst r.
          -- exfalso. apply (Hprev O); [lia|]. now rewrite Nat.add_0_r. }
  split; [|exact Hiff].
  intros Hsome. apply Hiff in Hsome. destruct Hsome as (j & _ & -> & Hacc & _).
  split; [rewrite scalar_candidate_length; apply Hrng|].
  split; [exact Hacc|]. apply scalar_candidate_bound, Hrng.
Qed.

(** * Buffers of [_string_to_points] *)

Lemma upd_app_cons (pre post : list byte) (x v : byte) (i : nat) :
  length pre = i -> List.upd (pre ++ x :: post) i v = pre ++ v :: post.
Proof.
  intros <-. induction pre as [|h pre IH]; cbn [app length].
  - unfold List.upd, List.upds. cbn. rewrite firstn_nil. reflexivity.
  - rewrite List.upd_cons_S, IH. reflexivity.
Qed.

Lemma upds_app_mid (pre old new post : list byte) (i : nat) :
  length pre = i -> length old = length new ->
  List.upds (pre ++ old ++ post) i new = pre ++ new ++ post.
Proof.
  intros <- Hlen. induction pre as [|h pre IH]; cbn [app length].
  - rewrite List.upds_0_skipn by (rewrite length_app; lia).
    rewrite <- Hlen, skipn_app_exact by reflexivity. reflexivity.
  - rewrite List.upds_cons_S, IH. reflexivity.
Qed.

Lemma skipn_cons_nth (l : list byte) (m : nat) :
  (m < length l)%nat -> skipn m l = byte_at l m :: skipn (S m) l.
Proof.
  revert l. induction m as [|m IH]; intros [|h l] Hm; cbn [length] in Hm; try lia.
  - reflexivity.
  - cbn [skipn]. rewrite IH by lia. reflexivity.
Qed.

Lemma byte_at_app_r (a l : list byte) (i j : nat) :
  length a = i -> byte_at (a ++ l) (i + j) = byte_at l j.
Proof.
  intros <-. unfold byte_at. rewrite app_nth2 by lia. f_equal. lia.
Qed.

Lemma byte_at_app_l (a l : list byte) (j : nat) :
  (j < length a)%nat -> byte_at (a ++ l) j = byte_at a j.
Proof. intros. unfold byte_at. apply app_nth1. assumption. Qed.

Lemma xor_bytes_length (a : list byte) :
  forall b, length a = length b -> length (xor_bytes a b) = length a.
Proof.
  induction a as [|x a IH]; intros [|y b] H; cbn in *; try lia.
  rewrite IH; lia.
Qed.

Lemma xor_bytes_firstn_S (m : nat) :
  forall a b, (m < length a)%nat -> (m < length b)%nat ->
    xor_bytes (firstn (S m) a) (firstn (S m) b)
    = xor_bytes (firstn m a) (firstn m b) ++ [byte.xor (byte_at a m) (byte_at b m)].
Proof.
  induction m as [|m IH]; intros [|x a] [|y b] Ha Hb; cbn [length] in *; try lia.
  - reflexivity.
  - rewrite !firstn_cons. cbn [xor_bytes app byte_at nth].
    rewrite IH by lia. reflexivity.
Qed.

Lemma xor_loop_invariant (a b : list byte) (m : nat) :
  length a = 64%nat -> length b = 64%nat -> (m <= 64)%nat ->
  fold_left
    (fun u j =>
       List.upd u (64 + j)
         (byte.xor (byte_at u (64 + j)) (byte_at u (64 + j - HASH_BYTES))))
    (seq 0 m) (a ++ b)
  = a ++ xor_bytes (firstn m b) (firstn m a) ++ skipn m b.
Proof.
  intros Ha Hb. induction m as [|m IH]; intros Hm.
  - reflexivity.
  - rewrite seq_S, fold_left_app, IH by lia. rewrite Nat.add_0_l. cbn [fold_left].
    change HASH_BYTES with 64%nat.
    replace (64 + m - 64)%nat with m by lia.
    assert (Hx : length (xor_bytes (firstn m b) (firstn m a)) = m)
      by (rewrite xor_bytes_length; rewrite !length_firstn; rewrite ?Ha, ?Hb; lia).
    rewrite (skipn_cons_nth b m) by lia.
    rewrite (byte_at_app_l a _ m) by lia.
    rewrite app_assoc.
    rewrite <- (Nat.add_0_r (64 + m)) at 2.
    rewrite byte_at_app_r by (rewrite length_app; lia).
    rewrite upd_app_cons by (rewrite length_app; lia).
    rewrite xor_bytes_firstn_S by lia.
    rewrite <- !app_assoc. reflexivity.
Qed.

Lemma xor_previous_block_second (a b : list byte) :
  length a = 64%nat -> length b = 64%nat ->
  xor_previous_block (a ++ b) 64 = a ++ xor_bytes b a.
Proof.
  intros Ha Hb. unfold xor_previous_block. cbn [Nat.ltb Nat.leb].
  change HASH_BYTES with 64%nat at 2.
  rewrite xor_loop_invariant by lia.
  rewrite !firstn_all2, List.skipn_all, app_nil_r by lia. reflexivity.
Qed.

Lemma bytes_at_app_l (a l : list byte) (n : nat) :
  length a = n -> bytes_at (a ++ l) 0 n = a.
Proof. intros. unfold bytes_at. cbn [skipn]. apply firstn_app_exact. assumption. Qed.

Lemma bytes_at_app_r (a b : list byte) (i n : nat) :
  length a = i -> length b = n -> bytes_at (a ++ b) i n = b.
Proof.
  intros Ha Hb. unfold bytes_at. rewrite skipn_app_exact by assumption.
  apply firstn_all2. lia.
Qed.

Lemma memcpy_front (old post new : list byte) (n : nat) :
  length old = n -> length new = n ->
  memcpy (old ++ post) 0 new n = new ++ post.
Proof.
  intros Ho Hn. unfold memcpy. rewrite (firstn_all2 (n := n) new) by lia.
  apply (upds_app_mid [] old new post 0); [reflexivity | lia].
Qed.

Lemma memcpy_back (pre old new : list byte) (n : nat) :
  length pre = n -> length old = n -> length new = n ->
  memcpy (pre ++ old) n new n = pre ++ new.
Proof.
  intros Hp Ho Hn. unfold memcpy. rewrite (firstn_all2 (n := n) new) by lia.
  rewrite <- (app_nil_r old), upds_app_mid by lia. now rewrite app_nil_r.
Qed.

Lemma strlen_le (c : list byte) : (strlen c <= length c)%nat.
Proof.
  induction c as [|b c IH]; cbn; [lia|].
  destruct (byte.unsigned b =? 0); cbn; lia.
Qed.

Lemma ctx_string_length (ctx : option (list byte)) :
  length (ctx_string ctx) = match ctx with Some c => strlen c | None => O end.
Proof.
  destruct ctx as [c|]; [|reflexivity]. cbn.
  rewrite length_firstn. pose proof (strlen_le c). lia.
Qed.

Lemma ctx_string_bytes (ctx : option (list byte)) :
  bytes_at (match ctx with Some c => c | None => [] end) 0
    (match ctx with Some c => strlen c | None => O end)
  = ctx_string ctx.
Proof. destruct ctx; reflexivity. Qed.

Lemma field_seed_buffer_spec (u0 u : list byte) (i : nat) :
  length u0 = 64%nat -> (i * 48 + 48 <= length u)%nat ->
  field_seed_buffer u0 u i = repeat Byte.x00 16 ++ bytes_at u (i * 48) 48.
Proof.
  intros Hu0 Hu. unfold field_seed_buffer, memset, memcpy, bytes_at.
  change (HASH_BYTES - HASH_L)%nat with 16%nat. change HASH_L with 48%nat.
  rewrite List.upds_0_skipn by (rewrite repeat_length; lia).
  rewrite repeat_length.
  rewrite <- (app_nil_r (skipn 16 u0)).
  rewrite upds_app_mid.
  - now rewrite app_nil_r.
  - apply repeat_length.
  - rewrite length_skipn, length_firstn, length_skipn. lia.
Qed.

Lemma field_seed_buffer_length (u0 u : list byte) (i : nat) :
  length u0 = 64%nat -> (i * 48 + 48 <= length u)%nat ->
  length (field_seed_buffer u0 u i) = 64%nat.
Proof.
  intros. rewrite field_seed_buffer_spec by assumption.
  unfold bytes_at. rewrite length_app, repeat_length, length_firstn, length_skipn. lia.
Qed.

Lemma bytes_at_app_within (a b : list byte) (off n : nat) :
  (off + n <= length a)%nat -> bytes_at (a ++ b) off n = bytes_at a off n.
Proof.
  intros H. unfold bytes_at.
  rewrite skipn_app, firstn_app, length_skipn.
  replace (off - length a)%nat with O by lia.
  replace (n - (length a - off))%nat with O by lia.
  cbn [skipn firstn]. apply app_nil_r.
Qed.

Section Expansion.
Context {hash : crypto_hash_sha512} {ref10 : ed25519_ref10}.
Hypothesis sha512_length : forall m, length (sha512 m) = 64%nat.

Lemma expand_block_first (u0 suite ctx : list byte) (cl : nat) (t1 tag : byte)
    (log : list (list byte)) :
  length u0 = 64%nat ->
  let m1 := u0 ++ [Byte.x01; tag] ++ suite ++ bytes_at ctx 0 cl in
  expand_block u0 suite ctx cl 0
    {| loc_u := uninit (2 * HASH_BYTES);
       loc_t := [Byte.x00; t1; Byte.x00; tag];
       loc_hashed := log |}
  = {| loc_u := sha512 m1 ++ repeat Byte.x00 64;
       loc_t := [Byte.x00; t1; Byte.x01; tag];
       loc_hashed := log ++ [m1] |}.
Proof.
  intros Hu0 m1. unfold expand_block. cbn [loc_u loc_t loc_hashed].
  change HASH_BYTES with 64%nat.
  change (uninit (2 * 64)) with (repeat Byte.x00 64 ++ repeat Byte.x00 64).
  rewrite memcpy_front by (assumption || reflexivity).
  change (xor_previous_block (u0 ++ repeat Byte.x00 64) 0)
    with (u0 ++ repeat Byte.x00 64).
  rewrite bytes_at_app_l by assumption.
  change (List.upd [Byte.x00; t1; Byte.x00; tag] 2
            (byte.of_Z (byte.unsigned (byte_at [Byte.x00; t1; Byte.x00; tag] 2) + 1)))
    with [Byte.x00; t1; Byte.x01; tag].
  change (bytes_at [Byte.x00; t1; Byte.x01; tag] 2 2) with [Byte.x01; tag].
  unfold crypto_hash_sha512_final, crypto_hash_sha512_update, crypto_hash_sha512_init.
  cbn [app]. rewrite <- !app_assoc. fold m1.
  rewrite memcpy_front by (apply sha512_length || assumption).
  reflexivity.
Qed.

Lemma expand_block_second (u0 b1 z suite ctx : list byte) (cl : nat) (t1 tag : byte)
    (log : list (list byte)) :
  length u0 = 64%nat -> length b1 = 64%nat -> length z = 64%nat ->
  let m2 := xor_bytes u0 b1 ++ [Byte.x02; tag] ++ suite ++ bytes_at ctx 0 cl in
  expand_block u0 suite ctx cl 64
    {| loc_u := b1 ++ z;
       loc_t := [Byte.x00; t1; Byte.x01; tag];
       loc_hashed := log |}
  = {| loc_u := b1 ++ sha512 m2;
       loc_t := [Byte.x00; t1; Byte.x02; tag];
       loc_hashed := log ++ [m2] |}.
Proof.
  intros Hu0 Hb1 Hz m2. unfold expand_block. cbn [loc_u loc_t loc_hashed].
  change HASH_BYTES with 64%nat.
  rewrite memcpy_back by assumption.
  rewrite xor_previous_block_second by assumption.
  assert (Hx : length (xor_bytes u0 b1) = 64%nat)
    by (rewrite xor_bytes_length; lia).
  rewrite bytes_at_app_r by assumption.
  change (List.upd [Byte.x00; t1; Byte.x01; tag] 2
            (byte.of_Z (byte.unsigned (byte_at [Byte.x00; t1; Byte.x01; tag] 2) + 1)))
    with [Byte.x00; t1; Byte.x02; tag].
  change (bytes_at [Byte.x00; t1; Byte.x02; tag] 2 2) with [Byte.x02; tag].
  unfold crypto_hash_sha512_final, crypto_hash_sha512_update, crypto_hash_sha512_init.
  cbn [app]. rewrite <- !app_assoc. fold m2.
  rewrite memcpy_back by (apply sha512_length || assumption).
  reflexivity.
Qed.

Lemma string_to_points_guard (n : nat) (suite : list byte) (ctx : option (list byte)) :
  (2 <? Z.of_nat n) || (255 <? Z.of_nat (length suite))
  || (255 - Z.of_nat (length suite)
      <? Z.of_nat (match ctx with Some c => strlen c | None => O end)) = true
  <-> h2c_rejects n suite ctx.
Proof.
  unfold h2c_rejects. rewrite ctx_string_length, !orb_true_iff, !Z.ltb_lt. tauto.
Qed.

Lemma string_to_points_rejected (px : list byte) (n : nat) (suite : list byte)
    (ctx : option (list byte)) (msg : list byte) :
  h2c_rejects n suite ctx ->
  _string_to_points px n suite ctx msg
  = {| h2c_ret := -1; h2c_out := px; h2c_hashed := [] |}.
Proof.
  intros Hrej. apply string_to_points_guard in Hrej.
  unfold _string_to_points. rewrite Hrej. reflexivity.
Qed.

Lemma code_tag (suite : list byte) (ctx : option (list byte)) :
  (length suite <= 255)%nat ->
  byte.of_Z (byte.unsigned (byte.of_Z (Z.of_nat (length suite)))
             + Z.of_nat (match ctx with Some c => strlen c | None => O end))
  = spec_tag suite (ctx_string ctx).
Proof.
  intros Hs. unfold spec_tag. rewrite ctx_string_length, byte.unsigned_of_Z.
  unfold byte.wrap. rewrite Z.mod_small by lia. reflexivity.
Qed.

Lemma big_endian_16_small (n : nat) :
  (n <= 2)%nat ->
  big_endian_16 (Z.of_nat n * 48) = [Byte.x00; byte.of_Z (Z.of_nat (n * HASH_L))].
Proof.
  intros Hn. destruct n as [|[|[|n]]]; try lia; reflexivity.
Qed.

Lemma string_to_points_accepted (px : list byte) (n : nat) (suite : list byte)
    (ctx : option (list byte)) (msg : list byte) :
  ~ h2c_rejects n suite ctx ->
  let tail := spec_tail_tag_first suite (ctx_string ctx) in
  let m0 := spec_u0_message n msg tail in
  let s :=
    expand_loop (sha512 m0) suite (match ctx with Some c => c | None => [] end)
      (match ctx with Some c => strlen c | None => O end) n 0
      {| loc_u := uninit (2 * HASH_BYTES);
         loc_t := [Byte.x00; byte.of_Z (Z.of_nat (n * HASH_L)); Byte.x00;
                   spec_tag suite (ctx_string ctx)];
         loc_hashed := [m0] |} in
  _string_to_points px n suite ctx msg
  = {| h2c_ret := 0;
       h2c_out := points_loop (loc_u s) n 0 (sha512 m0) px;
       h2c_hashed := loc_hashed s |}.
Proof.
  intros Hacc tail m0 s.
  assert (Hn : (n <= 2)%nat /\ (length suite <= 255)%nat)
    by (unfold h2c_rejects in Hacc; lia).
  destruct Hn as [Hn Hs].
  rewrite <- string_to_points_guard in Hacc. apply not_true_is_false in Hacc.
  unfold _string_to_points. rewrite Hacc.
  change (List.upd [Byte.x00; byte.of_Z (Z.of_nat (n * HASH_L)); Byte.x00; Byte.x00] 3 ?x)
    with [Byte.x00; byte.of_Z (Z.of_nat (n * HASH_L)); Byte.x00; x].
  rewrite code_tag by assumption.
  change (bytes_at [Byte.x00; byte.of_Z (Z.of_nat (n * HASH_L)); Byte.x00;
                    spec_tag suite (ctx_string ctx)] 0 4)
    with ([Byte.x00; byte.of_Z (Z.of_nat (n * HASH_L))]
            ++ [Byte.x00] ++ [spec_tag suite (ctx_string ctx)]).
  rewrite <- big_endian_16_small by assumption.
  rewrite ctx_string_bytes.
  unfold crypto_hash_sha512_final, crypto_hash_sha512_update, crypto_hash_sha512_init.
  cbn [app]. rewrite <- !app_assoc.
  reflexivity.
Qed.

Lemma expand_loop_run (u0 suite ctx : list byte) (cl : nat) (t1 tag : byte)
    (m0 : list byte) (n : nat) :
  length u0 = 64%nat -> (n <= 2)%nat ->
  let blocks :=
    map (spec_block_message u0 ([tag] ++ suite ++ bytes_at ctx 0 cl)) (seq 0 n) in
  let s :=
    expand_loop u0 suite ctx cl n 0
      {| loc_u := uninit (2 * HASH_BYTES);
         loc_t := [Byte.x00; t1; Byte.x00; tag];
         loc_hashed := [m0] |} in
  loc_hashed s = m0 :: blocks
  /\ loc_u s = concat (map sha512 blocks) ++ repeat Byte.x00 (128 - 64 * n).
Proof.
  intros Hu0 Hn. destruct n as [|[|[|n]]]; try lia; cbn [expand_loop seq map].
  - split; reflexivity.
  - rewrite expand_block_first by assumption. cbn [loc_hashed loc_u concat].
    rewrite app_nil_r. split; reflexivity.
  - rewrite expand_block_first by assumption.
    change (0 + HASH_BYTES)%nat with 64%nat.
    rewrite expand_block_second
      by (assumption || apply sha512_length || apply repeat_length).
    cbn [loc_hashed loc_u concat]. rewrite !app_nil_r. split; reflexivity.
Qed.

Hypothesis from_hash_length : forall h, length (ge25519_from_hash h) = 32%nat.

Lemma points_loop_run (u u0 px : list byte) (n : nat) :
  (n <= 2)%nat -> length u0 = 64%nat -> length u = 128%nat ->
  length px = (32 * n)%nat ->
  points_loop u n 0 u0 px
  = concat
      (map (fun i => ge25519_from_hash (repeat Byte.x00 16 ++ bytes_at u (i * 48) 48))
         (seq 0 n)).
Proof.
  intros Hn Hu0 Hu Hpx.
  destruct n as [|[|[|n]]]; try lia; cbn [points_loop seq map concat].
  - destruct px; [reflexivity | discriminate].
  - change (0 * crypto_core_ed25519_BYTES)%nat with 0%nat.
    change crypto_core_ed25519_BYTES with 32%nat.
    rewrite field_seed_buffer_spec by lia.
    rewrite <- (app_nil_r px), memcpy_front by (apply from_hash_length || lia).
    reflexivity.
  - change (0 * crypto_core_ed25519_BYTES)%nat with 0%nat.
    change (1 * crypto_core_ed25519_BYTES)%nat with 32%nat.
    change crypto_core_ed25519_BYTES with 32%nat.
    rewrite (field_seed_buffer_spec _ u 1)
      by (lia || apply field_seed_buffer_length; lia).
    rewrite field_seed_buffer_spec by lia.
    rewrite <- (firstn_skipn 32 px).
    rewrite memcpy_front
      by (apply from_hash_length || (rewrite length_firstn; lia)).
    rewrite memcpy_back
      by (apply from_hash_length || (rewrite length_skipn; lia)).
    rewrite app_nil_r. reflexivity.
Qed.
End Expansion.

(** * The point validator *)

Ltac use_test_results :=
  repeat match goal with
         | H : _ = _ |- _ => rewrite H
         end.

Ltac valid_point_case k :=
  cbn [fst snd negb forallb point_check_passes];
  use_test_results; cbn [negb andb];
  split; [split; intros; (discriminate || reflexivity)|];
  split; [auto|];
  split;
  [ exists k; cbn [firstn forallb nth_error option_map point_check_passes];
    use_test_results;
    repeat split; intros; (reflexivity || discriminate)
  | split; intros Hz;
    [ apply Z.eqb_eq in Hz | apply Z.eqb_neq in Hz ];
    (reflexivity || congruence) ].

Section Points.
Context {ref10 : ed25519_ref10}.

(** C4.  [crypto_core_ed25519_is_valid_point] returns 1 exactly when the
    five checks (a) canonical, (b) not of small order, (c) decodes, (d) on
    the curve, (e) in the main subgroup all pass, and 0 otherwise.  The
    primitives are called in that order and the calls stop at the first
    check that fails; so an encoding that [ge25519_has_small_order] reports
    is rejected. *)
Theorem is_valid_point_short_circuit (p : list byte) :
  let calls := fst (crypto_core_ed25519_is_valid_point_trace p) in
  let ret := crypto_core_ed25519_is_valid_point p in
  (ret = 1 <-> forallb (point_check_passes p) all_point_checks = true)
  /\ (ret = 0 \/ ret = 1)
  /\ (exists k,
        calls = firstn (S k) all_point_checks
        /\ forallb (point_check_passes p) (firstn k all_point_checks) = true
        /\ (ret = 0 ->
            option_map (point_check_passes p) (nth_error all_point_checks k)
            = Some false)
        /\ (ret = 1 -> calls = all_point_checks))
  /\ (ge25519_is_canonical p = 0 -> ret = 0)
  /\ (ge25519_has_small_order p <> 0 -> ret = 0).
Proof.
  unfold crypto_core_ed25519_is_valid_point, crypto_core_ed25519_is_valid_point_trace,
    all_point_checks.
  destruct (ge25519_is_canonical p =? 0) eqn:Hc;
    [ valid_point_case 0%nat |].
  destruct (ge25519_has_small_order p =? 0) eqn:Hs;
    [| valid_point_case 1%nat ].
  destruct (ge25519_frombytes p) as [p_p3|] eqn:Hd;
    [| valid_point_case 2%nat ].
  destruct (ge25519_is_on_curve p_p3 =? 0) eqn:Ho;
    [ valid_point_case 3%nat |].
  destruct (ge25519_is_on_main_subgroup p_p3 =? 0) eqn:Hm;
    valid_point_case 4%nat.
Qed.
End Points.

(** * Group operations and hash-to-curve *)

Section GroupOps.
Context {ref10 : ed25519_ref10}.

Lemma decodes_on_curve_spec (p : list byte) :
  decodes_on_curve p = true
  <-> exists p_p3, ge25519_frombytes p = Some p_p3 /\ ge25519_is_on_curve p_p3 <> 0.
Proof.
  unfold decodes_on_curve, point_check_passes.
  destruct (ge25519_frombytes p) as [p_p3|]; cbn [andb].
  - rewrite negb_true_iff, Z.eqb_neq. split.
    + intros H. exists p_p3. auto.
    + intros (P & [= <-] & H). exact H.
  - split; [discriminate | intros (P & [=] & _)].
Qed.

Lemma crypto_core_ed25519_add_ret (r p q : list byte) :
  fst (crypto_core_ed25519_add r p q)
  = if decodes_on_curve p && decodes_on_curve q then 0 else -1.
Proof.
  unfold crypto_core_ed25519_add, decodes_on_curve, point_check_passes.
  destruct (ge25519_frombytes p) as [p_p3|];
    [destruct (ge25519_is_on_curve p_p3 =? 0);
     [| destruct (ge25519_frombytes q) as [q_p3|];
        [destruct (ge25519_is_on_curve q_p3 =? 0)|]]|];
    reflexivity.
Qed.

(** C5.  [crypto_core_ed25519_add] and [crypto_core_ed25519_sub] return -1
    exactly when [p] or [q] does not decode to a point on the curve, and then
    [r] is left as it was; otherwise they return 0 and [r] is the encoding of
    the sum (the difference) of the decoded points.  The answers of
    [ge25519_is_canonical], [ge25519_has_small_order] and
    [ge25519_is_on_main_subgroup] play no part. *)
Theorem add_sub_fail_only_on_decode (r p q : list byte) :
  (fst (crypto_core_ed25519_add r p q) = -1
     <-> decodes_on_curve p && decodes_on_curve q = false)
  /\ (fst (crypto_core_ed25519_sub r p q) = -1
     <-> decodes_on_curve p && decodes_on_curve q = false)
  /\ (decodes_on_curve p && decodes_on_curve q = false ->
      crypto_core_ed25519_add r p q = (-1, r)
      /\ crypto_core_ed25519_sub r p q = (-1, r))
  /\ (forall p_p3 q_p3,
        ge25519_frombytes p = Some p_p3 -> ge25519_is_on_curve p_p3 <> 0 ->
        ge25519_frombytes q = Some q_p3 -> ge25519_is_on_curve q_p3 <> 0 ->
        crypto_core_ed25519_add r p q
        = (0, ge25519_p3_tobytes
                (ge25519_p1p1_to_p3
                   (ge25519_add p_p3 (ge25519_p3_to_cached q_p3))))
        /\ crypto_core_ed25519_sub r p q
           = (0, ge25519_p3_tobytes
                   (ge25519_p1p1_to_p3
                      (ge25519_sub p_p3 (ge25519_p3_to_cached q_p3)))))
  /\ (forall is_canonical has_small_order is_on_main_subgroup,
        let ref10' :=
          with_point_checks ref10 is_canonical has_small_order
            is_on_main_subgroup in
        @crypto_core_ed25519_add ref10' r p q = crypto_core_ed25519_add r p q
        /\ @crypto_core_ed25519_sub ref10' r p q = crypto_core_ed25519_sub r p q).
Proof.
  unfold crypto_core_ed25519_add, crypto_core_ed25519_sub, decodes_on_curve,
    point_check_passes.
  split; [|split; [|split; [|split]]].
  1-3: destruct (ge25519_frombytes p) as [p_p3|];
       [destruct (ge25519_is_on_curve p_p3 =? 0);
        [| destruct (ge25519_frombytes q) as [q_p3|];
           [destruct (ge25519_is_on_curve q_p3 =? 0)|]]|];
       cbn; try split; intros; (reflexivity || discriminate).
  - intros p_p3 q_p3 -> Hp -> Hq.
    apply Z.eqb_neq in Hp, Hq. rewrite Hp, Hq. split; reflexivity.
  - intros. split; reflexivity.
Qed.
End GroupOps.

Section HashToCurve.
Context {hash : crypto_hash_sha512} {ref10 : ed25519_ref10}.

Lemma not_rejects (n : nat) (suite : list byte) (ctx : option (list byte)) :
  (n <= 2)%nat -> (length suite + length (ctx_string ctx) <= 255)%nat ->
  ~ h2c_rejects n suite ctx.
Proof. unfold h2c_rejects. lia. Qed.

(** C2, amended.  For accepted arguments the messages hashed by
    [_string_to_points] are those of the specification with the one-byte tag
    in front of the suite instead of after the context: u0 is the digest of
    128 zero bytes || msg || big-endian-16(48 n) || 0x00 || tag || suite || ctx and
    block i is the digest of (u0, XOR-ed with the previous block when i > 0)
    || counter byte i+1 || tag || suite || ctx. *)
Theorem string_to_points_hashed_messages (px : list byte) (n : nat)
    (suite : list byte) (ctx : option (list byte)) (msg : list byte) :
  (forall m, length (sha512 m) = 64%nat) ->
  (n <= 2)%nat -> (length suite + length (ctx_string ctx) <= 255)%nat ->
  h2c_hashed (_string_to_points px n suite ctx msg)
  = spec_hashed n msg (spec_tail_tag_first suite (ctx_string ctx)).
Proof.
  intros Hsha Hn Hlen.
  rewrite string_to_points_accepted by (apply not_rejects; assumption).
  cbn [h2c_hashed].
  destruct (expand_loop_run Hsha
              (sha512 (spec_u0_message n msg (spec_tail_tag_first suite (ctx_string ctx))))
              suite (match ctx with Some c => c | None => [] end)
              (match ctx with Some c => strlen c | None => O end)
              (byte.of_Z (Z.of_nat (n * HASH_L))) (spec_tag suite (ctx_string ctx))
              (spec_u0_message n msg (spec_tail_tag_first suite (ctx_string ctx)))
              n (Hsha _) Hn) as [Hlog _].
  rewrite Hlog, ctx_string_bytes. reflexivity.
Qed.

Lemma string_to_points_run (px : list byte) (n : nat)
    (suite : list byte) (ctx : option (list byte)) (msg : list byte) :
  (forall m, length (sha512 m) = 64%nat) ->
  (forall h, length (ge25519_from_hash h) = 32%nat) ->
  (n <= 2)%nat -> (length suite + length (ctx_string ctx) <= 255)%nat ->
  length px = (32 * n)%nat ->
  let hashed := spec_hashed n msg (spec_tail_tag_first suite (ctx_string ctx)) in
  let u := concat (map sha512 (tl hashed)) in
  length u = (64 * n)%nat
  /\ _string_to_points px n suite ctx msg
     = {| h2c_ret := 0;
          h2c_out :=
            concat
              (map (fun i =>
                      ge25519_from_hash
                        (repeat Byte.x00 16 ++ bytes_at u (i * 48) 48))
                 (seq 0 n));
          h2c_hashed := hashed |}.
Proof.
  intros Hsha Hfh Hn Hlen Hpx.
  rewrite string_to_points_accepted by (apply not_rejects; assumption).
  destruct (expand_loop_run Hsha
              (sha512 (spec_u0_message n msg (spec_tail_tag_first suite (ctx_string ctx))))
              suite (match ctx with Some c => c | None => [] end)
              (match ctx with Some c => strlen c | None => O end)
              (byte.of_Z (Z.of_nat (n * HASH_L))) (spec_tag suite (ctx_string ctx))
              (spec_u0_message n msg (spec_tail_tag_first suite (ctx_string ctx)))
              n (Hsha _) Hn) as [Hlog Hu].
  rewrite Hlog, Hu, ctx_string_bytes.
  unfold spec_hashed. cbn [tl].
  set (blocks := map sha512 _).
  assert (Hblocks : length (concat blocks) = (64 * n)%nat).
  { subst blocks. destruct n as [|[|[|n]]]; try lia; cbn [seq map concat];
      rewrite ?length_app, ?Hsha; reflexivity. }
  split; [exact Hblocks|].
  rewrite (points_loop_run Hfh) by
    (try assumption; try apply Hsha; rewrite length_app, Hblocks, repeat_length; lia).
  f_equal. f_equal. apply map_ext_in. intros i Hi. apply in_seq in Hi.
  rewrite bytes_at_app_within by lia. reflexivity.
Qed.

(** C3, amended.  The blocks u_0 ... u_(n-1) are laid end to end and field
    seed i is the 48 bytes at offset 48 i of that sequence; the seed, with 16
    zero bytes in front, goes to [ge25519_from_hash], whose 32 bytes are the
    i-th point of the output. *)
Theorem string_to_points_field_seeds (px : list byte) (n : nat)
    (suite : list byte) (ctx : option (list byte)) (msg : list byte) :
  (forall m, length (sha512 m) = 64%nat) ->
  (forall h, length (ge25519_from_hash h) = 32%nat) ->
  (n <= 2)%nat -> (length suite + length (ctx_string ctx) <= 255)%nat ->
  length px = (32 * n)%nat ->
  let r := _string_to_points px n suite ctx msg in
  let u := concat (map sha512 (tl (h2c_hashed r))) in
  length u = (64 * n)%nat
  /\ h2c_out r
     = concat
         (map (fun i =>
                 ge25519_from_hash (repeat Byte.x00 16 ++ bytes_at u (i * 48) 48))
            (seq 0 n)).
Proof.
  intros Hsha Hfh Hn Hlen Hpx.
  destruct (string_to_points_run px n suite ctx msg Hsha Hfh Hn Hlen Hpx) as [Hu Hrun].
  rewrite Hrun. cbn [h2c_hashed h2c_out]. split; [exact Hu | reflexivity].
Qed.

Lemma string_to_points_ret (px : list byte) (n : nat)
    (suite : list byte) (ctx : option (list byte)) (msg : list byte) :
  ~ h2c_rejects n suite ctx ->
  h2c_ret (_string_to_points px n suite ctx msg) = 0.
Proof. intros H. rewrite string_to_points_accepted by assumption. reflexivity. Qed.

Lemma from_string_ro_accepted (p : list byte) (ctx : option (list byte))
    (msg : list byte) :
  (forall m, length (sha512 m) = 64%nat) ->
  (forall h, length (ge25519_from_hash h) = 32%nat) ->
  (forall h, decodes_on_curve (ge25519_from_hash h) = true) ->
  ~ h2c_rejects 2 suite_RO ctx ->
  h2c_ret (crypto_core_ed25519_from_string_ro p ctx msg) = 0.
Proof.
  intros Hsha Hfh Hdec Hacc. unfold crypto_core_ed25519_from_string_ro.
  assert (Hlen : (length suite_RO + length (ctx_string ctx) <= 255)%nat)
    by (unfold h2c_rejects in Hacc; lia).
  destruct (string_to_points_run (uninit (2 * crypto_core_ed25519_BYTES)) 2
              suite_RO ctx msg Hsha Hfh (le_n 2) Hlen eq_refl) as [_ Hrun].
  rewrite Hrun. cbn [h2c_ret h2c_out h2c_hashed Z.eqb negb seq map concat].
  change crypto_core_ed25519_BYTES with 32%nat.
  rewrite bytes_at_app_l by apply Hfh.
  rewrite app_nil_r, bytes_at_app_r by apply Hfh.
  match goal with
  | |- h2c_ret (let '(ret, p0) := ?a in _) = 0 =>
      pose proof (crypto_core_ed25519_add_ret p
                    (ge25519_from_hash
                       (repeat Byte.x00 16
                        ++ bytes_at
                             (concat (map sha512 (tl (spec_hashed 2 msg
                                (spec_tail_tag_first suite_RO (ctx_string ctx))))))
                             (0 * 48) 48))
                    (ge25519_from_hash
                       (repeat Byte.x00 16
                        ++ bytes_at
                             (concat (map sha512 (tl (spec_hashed 2 msg
                                (spec_tail_tag_first suite_RO (ctx_string ctx))))))
                             (1 * 48) 48))) as Hret;
      destruct a as [ret p']
  end.
  rewrite !Hdec in Hret. cbn [h2c_ret]. exact Hret.
Qed.

(** C6.  [_string_to_points] returns -1 exactly when n > 2, or
    len(suite) > 255, or len(ctx) > 255 - len(suite); it then has hashed
    nothing and the output array is untouched.  The same holds for
    [crypto_core_ed25519_from_string] and, when [ge25519_from_hash] yields
    encodings that decode to points on the curve, for
    [crypto_core_ed25519_from_string_ro].  A suite of 255 bytes with a
    non-empty context is rejected; len(suite) + len(ctx) = 255 with n <= 2 is
    accepted. *)
Theorem string_to_points_rejects_first (px p : list byte) (n : nat)
    (suite : list byte) (ctx : option (list byte)) (msg : list byte) :
  let r := _string_to_points px n suite ctx msg in
  let r1 := crypto_core_ed25519_from_string p ctx msg in
  let r2 := crypto_core_ed25519_from_string_ro p ctx msg in
  (h2c_ret r = -1 <-> h2c_rejects n suite ctx)
  /\ (h2c_ret r = -1 \/ h2c_ret r = 0)
  /\ (h2c_rejects n suite ctx -> h2c_out r = px /\ h2c_hashed r = [])
  /\ (h2c_ret r1 = -1 <-> h2c_rejects 1 suite_NU ctx)
  /\ (h2c_rejects 1 suite_NU ctx -> h2c_out r1 = p /\ h2c_hashed r1 = [])
  /\ (h2c_rejects 2 suite_RO ctx ->
      h2c_ret r2 = -1 /\ h2c_out r2 = p /\ h2c_hashed r2 = [])
  /\ ((forall m, length (sha512 m) = 64%nat) ->
      (forall h, length (ge25519_from_hash h) = 32%nat) ->
      (forall h, decodes_on_curve (ge25519_from_hash h) = true) ->
      (h2c_ret r2 = -1 <-> h2c_rejects 2 suite_RO ctx))
  /\ (length suite = 255%nat -> ctx_string ctx <> [] -> h2c_ret r = -1)
  /\ ((n <= 2)%nat -> (length suite + length (ctx_string ctx) = 255)%nat ->
      h2c_ret r = 0).
Proof.
  assert (Hiff : forall px n suite,
             h2c_ret (_string_to_points px n suite ctx msg) = -1
             <-> h2c_rejects n suite ctx).
  { intros px' n' suite'. split.
    - intros Hret. destruct (string_to_points_guard n' suite' ctx) as [Hg _].
      apply Hg. destruct (_ || _ || _) eqn:E in |- *; [reflexivity|].
      exfalso. unfold _string_to_points in Hret. rewrite E in Hret.
      cbn in Hret. discriminate.
    - intros Hrej. rewrite string_to_points_rejected by assumption. reflexivity. }
  cbv zeta. unfold crypto_core_ed25519_from_string.
  split; [apply Hiff|].
  split.
  { destruct (string_to_points_guard n suite ctx) as [_ Hg].
    unfold _string_to_points. destruct (_ || _ || _); [left | right]; reflexivity. }
  split; [intros Hrej; rewrite string_to_points_rejected by assumption; split; reflexivity|].
  split; [apply Hiff|].
  split; [intros Hrej; rewrite string_to_points_rejected by assumption; split; reflexivity|].
  split.
  { intros Hrej. unfold crypto_core_ed25519_from_string_ro.
    rewrite string_to_points_rejected by assumption. repeat split. }
  split.
  { intros Hsha Hfh Hdec. split.
    - intros Hret.
      assert (Hdecide : h2c_rejects 2 suite_RO ctx \/ ~ h2c_rejects 2 suite_RO ctx)
        by (unfold h2c_rejects; lia).
      destruct Hdecide as [Hrej | Hacc]; [exact Hrej|].
      rewrite (from_string_ro_accepted p ctx msg Hsha Hfh Hdec Hacc) in Hret. discriminate.
    - intros Hrej. unfold crypto_core_ed25519_from_string_ro.
      rewrite string_to_points_rejected by assumption. reflexivity. }
  split.
  - intros Hs Hctx. apply Hiff. unfold h2c_rejects. right. right.
    destruct (ctx_string ctx); [contradiction | cbn [length]; lia].
  - intros Hn Hlen. apply string_to_points_ret, not_rejects; lia.
Qed.
End HashToCurve.

(** * The functions run on the example inputs *)

Lemma demo_sha512_length (m : list byte) : length (@sha512 demo_hash m) = 64%nat.
Proof. apply length_le_split. Qed.

Lemma demo_from_hash_length (h : list byte) :
  length (@ge25519_from_hash demo_ref10 h) = 32%nat.
Proof. apply length_le_split. Qed.

Lemma demo_rng_length (k : nat) : length (demo_rng k) = 32%nat.
Proof. apply repeat_length. Qed.

Lemma negate_complement_cancel_witness :
  (length L_minus_1 = 32%nat /\ le_combine L_minus_1 < ell)
  /\ crypto_core_ed25519_scalar_add L_minus_1
       (crypto_core_ed25519_scalar_negate L_minus_1) = repeat Byte.x00 32
  /\ crypto_core_ed25519_scalar_add L_minus_1
       (crypto_core_ed25519_scalar_complement L_minus_1)
     = Byte.x01 :: repeat Byte.x00 31.
Proof.
  split.
  - split; [reflexivity | vm_compute; reflexivity].
  - apply (negate_complement_cancel L_minus_1); [reflexivity | vm_compute; reflexivity].
Defined.

Lemma scalar_invert_signals_zero_witness :
  length (repeat Byte.x00 32) = 32%nat
  /\ fst (@crypto_core_ed25519_scalar_invert demo_ref10 (repeat Byte.x00 32)) = -1
  /\ snd (@crypto_core_ed25519_scalar_invert demo_ref10 (repeat Byte.x00 32))
     = @sc25519_invert demo_ref10 (repeat Byte.x00 32).
Proof.
  split; [reflexivity|].
  destruct (@scalar_invert_signals_zero demo_ref10 (repeat Byte.x00 32) eq_refl)
    as (Hrecip & Hzero & _).
  split; [apply Hzero; reflexivity | exact Hrecip].
Defined.

Lemma scalar_invert_accepts_multiples_of_L_witness :
  (length L = 32%nat /\ L <> repeat Byte.x00 32 /\ le_combine L mod ell = 0)
  /\ fst (@crypto_core_ed25519_scalar_invert demo_ref10 L) = 0
  /\ snd (@crypto_core_ed25519_scalar_invert demo_ref10 L) = @sc25519_invert demo_ref10 L
  /\ forall recip : list byte, (le_combine L * le_combine recip) mod ell <> 1.
Proof.
  split.
  - split; [reflexivity | split; [discriminate | vm_compute; reflexivity]].
  - apply (@scalar_invert_accepts_multiples_of_L demo_ref10 L);
      [reflexivity | discriminate | vm_compute; reflexivity].
Defined.

Lemma scalar_random_canonical_nonzero_witness :
  crypto_core_ed25519_scalar_random 2 demo_rng 0 (uninit 32) = Some (repeat Byte.x01 32)
  /\ length (repeat Byte.x01 32) = 32%nat
  /\ 0 < le_combine (repeat Byte.x01 32) < ell
  /\ le_combine (repeat Byte.x01 32) < 2 ^ 253.
Proof.
  split; [vm_compute; reflexivity|].
  apply (proj1 (scalar_random_canonical_nonzero 2 demo_rng 0 (uninit 32)
                  (repeat Byte.x01 32) demo_rng_length eq_refl)).
  vm_compute. reflexivity.
Defined.

Lemma demo_nu_run :
  demo_nu
  = {| h2c_ret := 0;
       h2c_out :=
         concat
           (map (fun i =>
                   @ge25519_from_hash demo_ref10
                     (repeat Byte.x00 16
                      ++ bytes_at
                           (concat (map (@sha512 demo_hash)
                              (tl (@spec_hashed demo_hash 1 demo_msg
                                 (spec_tail_tag_first suite_NU (ctx_string demo_ctx))))))
                           (i * 48) 48))
              (seq 0 1));
       h2c_hashed :=
         @spec_hashed demo_hash 1 demo_msg
           (spec_tail_tag_first suite_NU (ctx_string demo_ctx)) |}.
Proof.
  apply (@string_to_points_run demo_hash demo_ref10 (uninit 32) 1 suite_NU demo_ctx
           demo_msg demo_sha512_length demo_from_hash_length);
    [lia | vm_compute; lia | reflexivity].
Qed.

Lemma demo_ro_run :
  demo_ro
  = {| h2c_ret := 0;
       h2c_out :=
         concat
           (map (fun i =>
                   @ge25519_from_hash demo_ref10
                     (repeat Byte.x00 16
                      ++ bytes_at
                           (concat (map (@sha512 demo_hash)
                              (tl (@spec_hashed demo_hash 2 demo_msg
                                 (spec_tail_tag_first suite_RO (ctx_string demo_ctx))))))
                           (i * 48) 48))
              (seq 0 2));
       h2c_hashed :=
         @spec_hashed demo_hash 2 demo_msg
           (spec_tail_tag_first suite_RO (ctx_string demo_ctx)) |}.
Proof.
  apply (@string_to_points_run demo_hash demo_ref10 (uninit 64) 2 suite_RO demo_ctx
           demo_msg demo_sha512_length demo_from_hash_length);
    [lia | vm_compute; lia | reflexivity].
Qed.

Lemma string_to_points_tag_not_last :
  h2c_hashed demo_nu
  <> @spec_hashed demo_hash 1 demo_msg
       (spec_tail_tag_last suite_NU (ctx_string demo_ctx))
  /\ spec_tag suite_NU (ctx_string demo_ctx) = Byte.x24
  /\ map (fun m => last m Byte.x00) (h2c_hashed demo_nu) = [Byte.x78; Byte.x78].
Proof.
  rewrite demo_nu_run. cbn [h2c_hashed].
  split; [|split].
  - intros H. apply (f_equal (fun l => last (hd [] l) Byte.x00)) in H.
    revert H. vm_compute. discriminate.
  - vm_compute. reflexivity.
  - vm_compute. reflexivity.
Qed.

Lemma string_to_points_hashed_messages_witness :
  ((1 <= 2)%nat /\ (length suite_NU + length (ctx_string demo_ctx) <= 255)%nat)
  /\ h2c_hashed demo_nu
     = @spec_hashed demo_hash 1 demo_msg
         (spec_tail_tag_first suite_NU (ctx_string demo_ctx)).
Proof.
  split.
  - split; [lia | vm_compute; lia].
  - apply (@string_to_points_hashed_messages demo_hash demo_ref10);
      [exact demo_sha512_length | lia | vm_compute; lia].
Defined.

Lemma string_to_points_seed_not_last_48 :
  bytes_at (h2c_out demo_ro) 0 32
  <> @ge25519_from_hash demo_ref10
       (repeat Byte.x00 16
        ++ skipn 16 (@sha512 demo_hash (nth 1 (h2c_hashed demo_ro) [])))
  /\ bytes_at (h2c_out demo_ro) 32 32
     <> @ge25519_from_hash demo_ref10
          (repeat Byte.x00 16
           ++ skipn 16 (@sha512 demo_hash (nth 2 (h2c_hashed demo_ro) []))).
Proof.
  rewrite demo_ro_run. cbn [h2c_hashed h2c_out].
  split; intros H; apply (f_equal le_combine) in H; revert H;
    vm_compute; discriminate.
Qed.

Lemma string_to_points_field_seeds_witness :
  ((2 <= 2)%nat /\ (length suite_RO + length (ctx_string demo_ctx) <= 255)%nat
   /\ length (uninit 64) = (32 * 2)%nat)
  /\ length (concat (map (@sha512 demo_hash) (tl (h2c_hashed demo_ro)))) = (64 * 2)%nat
  /\ h2c_out demo_ro
     = concat
         (map (fun i =>
                 @ge25519_from_hash demo_ref10
                   (repeat Byte.x00 16
                    ++ bytes_at
                         (concat (map (@sha512 demo_hash) (tl (h2c_hashed demo_ro))))
                         (i * 48) 48))
            (seq 0 2)).
Proof.
  split.
  - split; [lia | split; [vm_compute; lia | reflexivity]].
  - apply (@string_to_points_field_seeds demo_hash demo_ref10);
      [exact demo_sha512_length | exact demo_from_hash_length | lia
      | vm_compute; lia | reflexivity].
Defined.

(** * More on the scalar ring *)

Lemma mod_ell_range (z : Z) : 0 <= z mod ell < ell.
Proof. apply Z.mod_pos_bound. unfold ell. lia. Qed.

Lemma le_combine_mod_ell (z : Z) : le_combine (le_split 32 (z mod ell)) = z mod ell.
Proof. apply le_combine_le_split_small, mod_ell_range. Qed.

Lemma le_combine_32_range (x : list byte) :
  length x = 32%nat -> 0 <= le_combine x < 2 ^ 256.
Proof. intros Hx. apply (le_combine_lt x 32 Hx). Qed.

Lemma scalar_sub_spec (x y : list byte) :
  length x = 32%nat -> length y = 32%nat ->
  crypto_core_ed25519_scalar_sub x y
  = le_split 32 (((le_combine x + (- le_combine y) mod ell) mod 2 ^ 256) mod ell).
Proof.
  intros Hx Hy. unfold crypto_core_ed25519_scalar_sub.
  rewrite scalar_negate_spec by assumption.
  rewrite scalar_add_spec by (assumption || apply length_le_split).
  rewrite le_combine_mod_ell. reflexivity.
Qed.

Lemma scalar_add_no_carry (x y : list byte) :
  length x = 32%nat -> length y = 32%nat ->
  le_combine x + le_combine y < 2 ^ 256 ->
  crypto_core_ed25519_scalar_add x y
  = le_split 32 ((le_combine x + le_combine y) mod ell).
Proof.
  intros Hx Hy Hsum. rewrite scalar_add_spec by assumption.
  pose proof (le_combine_nonneg x). pose proof (le_combine_nonneg y).
  rewrite (Z.mod_small _ (2 ^ 256)) by lia. reflexivity.
Qed.

Lemma scalar_sub_canonical (x y : list byte) :
  length x = 32%nat -> length y = 32%nat -> le_combine x < ell ->
  crypto_core_ed25519_scalar_sub x y
  = le_split 32 ((le_combine x - le_combine y) mod ell).
Proof.
  intros Hx Hy Hc. rewrite scalar_sub_spec by assumption.
  pose proof (le_combine_nonneg x). pose proof ell_range.
  pose proof (mod_ell_range (- le_combine y)).
  rewrite (Z.mod_small _ (2 ^ 256)) by lia.
  rewrite Z.add_mod_idemp_r by lia.
  reflexivity.
Qed.

Lemma canonical_le_split (x : list byte) :
  length x = 32%nat -> le_combine x < ell ->
  le_split 32 (le_combine x mod ell) = x.
Proof.
  intros Hx Hc. pose proof (le_combine_nonneg x).
  rewrite Z.mod_small by lia. apply split_le_combine'. assumption.
Qed.

Lemma canonical_le_split_eq (x : list byte) (z : Z) :
  length x = 32%nat -> le_combine x < ell -> z mod ell = le_combine x mod ell ->
  le_split 32 (z mod ell) = x.
Proof. intros Hx Hc ->. apply canonical_le_split; assumption. Qed.

(** X1.  When the two 32-byte operands add up to less than 2^256 (as any
    two canonical scalars do), [crypto_core_ed25519_scalar_add] returns the
    encoding of (x + y) mod L. *)
Theorem scalar_add_exact_without_carry (x y : list byte) :
  length x = 32%nat -> length y = 32%nat ->
  le_combine x + le_combine y < 2 ^ 256 ->
  crypto_core_ed25519_scalar_add x y
  = le_split 32 ((le_combine x + le_combine y) mod ell).
Proof. exact (scalar_add_no_carry x y). Qed.

(** X2.  Whatever the input bytes, canonical or not, the results of
    scalar add, sub, negate, complement and reduce are numbers below L. *)
Theorem scalar_results_canonical (x y w : list byte) :
  length x = 32%nat -> length y = 32%nat -> length w = 64%nat ->
  le_combine (crypto_core_ed25519_scalar_add x y) < ell
  /\ le_combine (crypto_core_ed25519_scalar_sub x y) < ell
  /\ le_combine (crypto_core_ed25519_scalar_negate x) < ell
  /\ le_combine (crypto_core_ed25519_scalar_complement x) < ell
  /\ le_combine (crypto_core_ed25519_scalar_reduce w) < ell.
Proof.
  intros Hx Hy Hw.
  rewrite scalar_add_spec, scalar_sub_spec, scalar_negate_spec,
    scalar_complement_spec, scalar_reduce_spec by assumption.
  rewrite !le_combine_mod_ell.
  repeat split; apply mod_ell_range.
Qed.

(** X3.  [crypto_core_ed25519_scalar_negate] takes any 32-byte input, also
    a non-canonical one, to the encoding of (-s) mod L: a multiple of L goes
    to zero and a canonical nonzero s to L - s. *)
Theorem scalar_negate_any_input (s : list byte) :
  length s = 32%nat ->
  crypto_core_ed25519_scalar_negate s = le_split 32 ((- le_combine s) mod ell)
  /\ (le_combine s mod ell = 0 ->
      crypto_core_ed25519_scalar_negate s = repeat Byte.x00 32)
  /\ (0 < le_combine s < ell ->
      le_combine (crypto_core_ed25519_scalar_negate s) = ell - le_combine s).
Proof.
  intros Hs. rewrite scalar_negate_spec by assumption.
  split; [reflexivity|]. split.
  - intros Hz. rewrite Z.mod_opp_l_z by (unfold ell; lia || assumption). reflexivity.
  - intros Hr. rewrite le_combine_mod_ell.
    rewrite Z.mod_opp_l_nz by (rewrite ?Z.mod_small by lia; unfold ell in *; lia).
    rewrite Z.mod_small by lia. reflexivity.
Qed.

(** X4.  [crypto_core_ed25519_scalar_complement] takes any 32-byte input
    to the encoding of (1 - s) mod L: zero goes to one and 1 < s <= L to
    L + 1 - s. *)
Theorem scalar_complement_any_input (s : list byte) :
  length s = 32%nat ->
  crypto_core_ed25519_scalar_complement s = le_split 32 ((1 - le_combine s) mod ell)
  /\ (crypto_core_ed25519_scalar_complement (repeat Byte.x00 32)
      = Byte.x01 :: repeat Byte.x00 31)
  /\ (1 < le_combine s <= ell ->
      le_combine (crypto_core_ed25519_scalar_complement s) = ell + 1 - le_combine s).
Proof.
  intros Hs. rewrite !scalar_complement_spec by (assumption || reflexivity).
  split; [reflexivity|]. split.
  - reflexivity.
  - intros Hr. rewrite le_combine_mod_ell.
    replace (1 - le_combine s) with (ell + 1 - le_combine s + (-1) * ell) by lia.
    rewrite Z.mod_add by (unfold ell; lia).
    apply Z.mod_small. lia.
Qed.

(** X5.  For a canonical x and any 32-byte y,
    [crypto_core_ed25519_scalar_sub] returns the encoding of (x - y) mod L. *)
Theorem scalar_sub_value (x y : list byte) :
  length x = 32%nat -> length y = 32%nat -> le_combine x < ell ->
  crypto_core_ed25519_scalar_sub x y
  = le_split 32 ((le_combine x - le_combine y) mod ell).
Proof. exact (scalar_sub_canonical x y). Qed.

(** X6.  For canonical x and y, subtracting y after adding it, and adding
    y after subtracting it, both give back x. *)
Theorem scalar_sub_add_round_trip (x y : list byte) :
  length x = 32%nat -> length y = 32%nat ->
  le_combine x < ell -> le_combine y < ell ->
  crypto_core_ed25519_scalar_sub (crypto_core_ed25519_scalar_add x y) y = x
  /\ crypto_core_ed25519_scalar_add (crypto_core_ed25519_scalar_sub x y) y = x.
Proof.
  intros Hx Hy Hcx Hcy.
  pose proof (le_combine_nonneg x). pose proof (le_combine_nonneg y).
  pose proof ell_range as Hl.
  split.
  - rewrite (scalar_add_no_carry x y) by (assumption || lia).
    rewrite scalar_sub_canonical
      by (try apply length_le_split; try assumption;
          rewrite le_combine_mod_ell; apply mod_ell_range).
    rewrite le_combine_mod_ell.
    apply canonical_le_split_eq; try assumption.
    rewrite Zminus_mod_idemp_l. f_equal. lia.
  - rewrite scalar_sub_canonical by assumption.
    pose proof (mod_ell_range (le_combine x - le_combine y)).
    rewrite scalar_add_no_carry
      by (try apply length_le_split; try assumption; rewrite le_combine_mod_ell; lia).
    rewrite le_combine_mod_ell.
    apply canonical_le_split_eq; try assumption.
    rewrite Z.add_mod_idemp_l by lia. f_equal. lia.
Qed.

(** X7.  [crypto_core_ed25519_scalar_reduce] is idempotent on its own
    result zero-extended to 64 bytes, and leaves a canonical scalar
    (zero-extended) unchanged. *)
Theorem scalar_reduce_idempotent (w x : list byte) :
  length w = 64%nat -> length x = 32%nat -> le_combine x < ell ->
  crypto_core_ed25519_scalar_reduce
    (crypto_core_ed25519_scalar_reduce w ++ repeat Byte.x00 32)
  = crypto_core_ed25519_scalar_reduce w
  /\ crypto_core_ed25519_scalar_reduce (x ++ repeat Byte.x00 32) = x.
Proof.
  intros Hw Hx Hc. split.
  - rewrite (scalar_reduce_spec w Hw).
    rewrite scalar_reduce_spec by (rewrite length_app, length_le_split; reflexivity).
    rewrite le_combine_app_0, le_combine_mod_ell, Z.mod_mod by (unfold ell; lia).
    reflexivity.
  - rewrite scalar_reduce_spec by (rewrite length_app, Hx; reflexivity).
    rewrite le_combine_app_0. apply canonical_le_split; assumption.
Qed.

(** X8.  [crypto_core_ed25519_scalar_add] is commutative on all 32-byte
    inputs. *)
Theorem scalar_add_commutative (x y : list byte) :
  length x = 32%nat -> length y = 32%nat ->
  crypto_core_ed25519_scalar_add x y = crypto_core_ed25519_scalar_add y x.
Proof.
  intros Hx Hy. rewrite !scalar_add_spec by assumption.
  rewrite (Z.add_comm (le_combine x)). reflexivity.
Qed.

(** X9.  On canonical scalars negate and complement are involutions. *)
Theorem scalar_negate_complement_involutive (x : list byte) :
  length x = 32%nat -> le_combine x < ell ->
  crypto_core_ed25519_scalar_negate (crypto_core_ed25519_scalar_negate x) = x
  /\ crypto_core_ed25519_scalar_complement (crypto_core_ed25519_scalar_complement x)
     = x.
Proof.
  intros Hx Hc. pose proof ell_range.
  rewrite (scalar_negate_spec x Hx), (scalar_complement_spec x Hx).
  rewrite scalar_negate_spec, scalar_complement_spec by apply length_le_split.
  rewrite !le_combine_mod_ell.
  split; apply canonical_le_split_eq; try assumption.
  - rewrite <- (Z.sub_0_l (_ mod _)), Zminus_mod_idemp_r. f_equal. lia.
  - rewrite Zminus_mod_idemp_r. f_equal. lia.
Qed.

(** X10.  On canonical scalars [crypto_core_ed25519_scalar_add] is
    associative and the all-zero scalar is its neutral element on both
    sides. *)
Theorem scalar_add_monoid (x y z : list byte) :
  length x = 32%nat -> length y = 32%nat -> length z = 32%nat ->
  le_combine x < ell -> le_combine y < ell -> le_combine z < ell ->
  crypto_core_ed25519_scalar_add (crypto_core_ed25519_scalar_add x y) z
  = crypto_core_ed25519_scalar_add x (crypto_core_ed25519_scalar_add y z)
  /\ crypto_core_ed25519_scalar_add x (repeat Byte.x00 32) = x
  /\ crypto_core_ed25519_scalar_add (repeat Byte.x00 32) x = x.
Proof.
  intros Hx Hy Hz Hcx Hcy Hcz.
  pose proof (le_combine_nonneg x). pose proof (le_combine_nonneg y).
  pose proof (le_combine_nonneg z). pose proof ell_range.
  pose proof (mod_ell_range (le_combine x + le_combine y)).
  pose proof (mod_ell_range (le_combine y + le_combine z)).
  split; [|split].
  - rewrite (scalar_add_no_carry x y), (scalar_add_no_carry y z) by (assumption || lia).
    rewrite !scalar_add_no_carry
      by (try apply length_le_split; try assumption; rewrite le_combine_mod_ell; lia).
    rewrite !le_combine_mod_ell.
    rewrite Z.add_mod_idemp_l, Z.add_mod_idemp_r by lia.
    f_equal. f_equal. lia.
  - rewrite scalar_add_no_carry by (assumption || reflexivity || (rewrite le_combine_0; lia)).
    rewrite le_combine_0, Z.add_0_r. apply canonical_le_split; assumption.
  - rewrite scalar_add_no_carry by (assumption || reflexivity || (rewrite le_combine_0; lia)).
    rewrite le_combine_0, Z.add_0_l. apply canonical_le_split; assumption.
Qed.

(** X20.  Adding the all-zero scalar to any 32-byte x canonicalises it:
    the result is that of [crypto_core_ed25519_scalar_reduce] on x
    zero-extended, the encoding of x mod L. *)
Theorem scalar_add_zero_reduces (x : list byte) :
  length x = 32%nat ->
  crypto_core_ed25519_scalar_add x (repeat Byte.x00 32)
  = crypto_core_ed25519_scalar_reduce (x ++ repeat Byte.x00 32)
  /\ le_combine (crypto_core_ed25519_scalar_add x (repeat Byte.x00 32))
     = le_combine x mod ell.
Proof.
  intros Hx. pose proof (le_combine_32_range x Hx).
  rewrite scalar_add_no_carry by (assumption || reflexivity || (rewrite le_combine_0; lia)).
  rewrite scalar_reduce_spec by (rewrite length_app, Hx; reflexivity).
  rewrite le_combine_app_0, le_combine_0, Z.add_0_r, le_combine_mod_ell.
  split; reflexivity.
Qed.

(** * More on the group operations and on hash-to-curve *)

Section MoreHashToCurve.
Context {hash : crypto_hash_sha512} {ref10 : ed25519_ref10}.

Lemma expand_block_ctx (u0 suite c1 c2 : list byte) (l1 l2 i : nat) (s : h2c_locals) :
  bytes_at c1 0 l1 = bytes_at c2 0 l2 ->
  expand_block u0 suite c1 l1 i s = expand_block u0 suite c2 l2 i s.
Proof. intros H. unfold expand_block. rewrite H. reflexivity. Qed.

Lemma expand_loop_ctx (u0 suite c1 c2 : list byte) (l1 l2 k : nat) :
  bytes_at c1 0 l1 = bytes_at c2 0 l2 ->
  forall i s,
    expand_loop u0 suite c1 l1 k i s = expand_loop u0 suite c2 l2 k i s.
Proof.
  intros H. induction k as [|k IH]; intros i s; cbn [expand_loop]; [reflexivity|].
  rewrite (expand_block_ctx u0 suite c1 c2 l1 l2 i s H). apply IH.
Qed.

(** X11.  [_string_to_points] uses of [ctx] only the string it holds: a
    null pointer behaves as the empty string and the bytes after the
    terminator play no part. *)
Theorem string_to_points_ctx_string (px : list byte) (n : nat) (suite : list byte)
    (ctx1 ctx2 : option (list byte)) (msg : list byte) :
  ctx_string ctx1 = ctx_string ctx2 ->
  _string_to_points px n suite ctx1 msg = _string_to_points px n suite ctx2 msg.
Proof.
  intros H.
  pose proof (ctx_string_length ctx1) as Hl1. pose proof (ctx_string_length ctx2) as Hl2.
  pose proof (ctx_string_bytes ctx1) as Hb1. pose proof (ctx_string_bytes ctx2) as Hb2.
  unfold _string_to_points. cbv zeta.
  set (l1 := match ctx1 with Some c => strlen c | None => O end) in *.
  set (l2 := match ctx2 with Some c => strlen c | None => O end) in *.
  set (r1 := match ctx1 with Some c => c | None => [] end) in *.
  set (r2 := match ctx2 with Some c => c | None => [] end) in *.
  assert (Hl : l1 = l2) by congruence.
  assert (Hb : bytes_at r1 0 l1 = bytes_at r2 0 l2) by congruence.
  clearbody l1 l2 r1 r2. clear Hl1 Hl2 Hb1 Hb2. subst l2.
  rewrite (expand_loop_ctx _ suite r1 r2 l1 l1 n Hb), Hb.
  reflexivity.
Qed.

Lemma string_to_points_ret_iff (px : list byte) (n : nat) (suite : list byte)
    (ctx : option (list byte)) (msg : list byte) :
  h2c_ret (_string_to_points px n suite ctx msg) = -1 <-> h2c_rejects n suite ctx.
Proof.
  split.
  - intros Hret. destruct (string_to_points_guard n suite ctx) as [Hg _].
    apply Hg. destruct (_ || _ || _) eqn:E in |- *; [reflexivity|].
    exfalso. unfold _string_to_points in Hret. rewrite E in Hret.
    cbn in Hret. discriminate.
  - intros Hrej. rewrite string_to_points_rejected by assumption. reflexivity.
Qed.

(** X12.  [crypto_core_ed25519_from_string] fails exactly when the context
    is longer than 222 bytes and succeeds otherwise;
    [crypto_core_ed25519_from_string_ro] given such a context returns -1,
    leaves [p] alone and hashes nothing. *)
Theorem from_string_context_limit (p : list byte) (ctx : option (list byte))
    (msg : list byte) :
  (h2c_ret (crypto_core_ed25519_from_string p ctx msg) = -1
   <-> (222 < length (ctx_string ctx))%nat)
  /\ (h2c_ret (crypto_core_ed25519_from_string p ctx msg) = 0
      <-> (length (ctx_string ctx) <= 222)%nat)
  /\ ((222 < length (ctx_string ctx))%nat ->
      crypto_core_ed25519_from_string_ro p ctx msg
      = {| h2c_ret := -1; h2c_out := p; h2c_hashed := [] |}).
Proof.
  assert (HNU : h2c_rejects 1 suite_NU ctx <-> (222 < length (ctx_string ctx))%nat).
  { unfold h2c_rejects. change (length suite_NU) with 33%nat. lia. }
  assert (HRO : h2c_rejects 2 suite_RO ctx <-> (222 < length (ctx_string ctx))%nat).
  { unfold h2c_rejects. change (length suite_RO) with 33%nat. lia. }
  unfold crypto_core_ed25519_from_string.
  split; [|split].
  - rewrite string_to_points_ret_iff. exact HNU.
  - split.
    + intros Hret.
      destruct (Nat.le_gt_cases (length (ctx_string ctx)) 222) as [Hle | Hgt];
        [exact Hle|].
      apply HNU in Hgt. rewrite string_to_points_rejected in Hret by assumption.
      discriminate.
    + intros Hle. apply string_to_points_ret. rewrite HNU. lia.
  - intros Hgt. apply HRO in Hgt. unfold crypto_core_ed25519_from_string_ro.
    rewrite string_to_points_rejected by assumption. reflexivity.
Qed.

(** X14.  With n = 0 and accepted lengths [_string_to_points] succeeds,
    leaves the output array as it was and still computes the one digest u0,
    whose length field is zero. *)
Theorem string_to_points_no_points (px suite : list byte) (ctx : option (list byte))
    (msg : list byte) :
  (length suite + length (ctx_string ctx) <= 255)%nat ->
  _string_to_points px 0 suite ctx msg
  = {| h2c_ret := 0;
       h2c_out := px;
       h2c_hashed :=
         [repeat Byte.x00 128 ++ msg
          ++ [Byte.x00; Byte.x00; Byte.x00; spec_tag suite (ctx_string ctx)]
          ++ suite ++ ctx_string ctx] |}.
Proof.
  intros Hlen. rewrite string_to_points_accepted by (apply not_rejects; lia).
  reflexivity.
Qed.

Lemma expand_loop_hashed (u0 suite ctx : list byte) (cl k : nat) :
  forall i s,
    exists blocks,
      loc_hashed (expand_loop u0 suite ctx cl k i s) = loc_hashed s ++ blocks
      /\ length blocks = k.
Proof.
  induction k as [|k IH]; intros i s; cbn [expand_loop].
  - exists []. rewrite app_nil_r. split; reflexivity.
  - destruct (IH (i + HASH_BYTES)%nat (expand_block u0 suite ctx cl i s))
      as (blocks & Hlog & Hk).
    unfold expand_block in Hlog at 2. cbn [loc_hashed] in Hlog.
    rewrite <- app_assoc in Hlog. eexists. split; [exact Hlog|].
    cbn [app length]. rewrite Hk. reflexivity.
Qed.

(** X17.  A successful [_string_to_points] finishes exactly n + 1 hash
    computations, a failed one none; it never finishes more than three. *)
Theorem string_to_points_hash_count (px : list byte) (n : nat) (suite : list byte)
    (ctx : option (list byte)) (msg : list byte) :
  let r := _string_to_points px n suite ctx msg in
  (h2c_ret r = 0 -> length (h2c_hashed r) = S n)
  /\ (h2c_ret r = -1 -> h2c_hashed r = [])
  /\ (length (h2c_hashed r) <= 3)%nat.
Proof.
  cbv zeta.
  assert (Hdec : h2c_rejects n suite ctx \/ ~ h2c_rejects n suite ctx)
    by (unfold h2c_rejects; lia).
  destruct Hdec as [Hrej | Hacc].
  - rewrite string_to_points_rejected by assumption. cbn.
    split; [discriminate | split; [reflexivity | lia]].
  - rewrite string_to_points_accepted by assumption. cbn [h2c_ret h2c_hashed].
    match goal with
    | |- context [expand_loop ?u0 ?su ?c ?cl ?k ?i ?s] =>
        destruct (expand_loop_hashed u0 su c cl k i s) as (blocks & Hlog & Hk)
    end.
    rewrite Hlog. cbn [loc_hashed app length]. rewrite Hk.
    assert ((n <= 2)%nat) by (unfold h2c_rejects in Hacc; lia).
    split; [reflexivity | split; [discriminate | lia]].
Qed.

(** X18.  On accepted arguments neither length byte of the first hashed
    message wraps around: after msg come 0, 48 n, 0 and
    len(suite) + len(ctx) as numbers, then suite and ctx. *)
Theorem string_to_points_length_bytes (px : list byte) (n : nat) (suite : list byte)
    (ctx : option (list byte)) (msg : list byte) :
  (n <= 2)%nat -> (length suite + length (ctx_string ctx) <= 255)%nat ->
  exists l_i_b tag,
    hd [] (h2c_hashed (_string_to_points px n suite ctx msg))
    = repeat Byte.x00 128 ++ msg ++ [Byte.x00; l_i_b; Byte.x00; tag]
      ++ suite ++ ctx_string ctx
    /\ byte.unsigned l_i_b = 48 * Z.of_nat n
    /\ byte.unsigned tag = Z.of_nat (length suite) + Z.of_nat (length (ctx_string ctx)).
Proof.
  intros Hn Hlen.
  rewrite string_to_points_accepted by (apply not_rejects; assumption).
  cbn [h2c_hashed].
  match goal with
  | |- context [expand_loop ?u0 ?su ?c ?cl ?k ?i ?s] =>
      destruct (expand_loop_hashed u0 su c cl k i s) as (blocks & Hlog & _)
  end.
  rewrite Hlog. cbn [loc_hashed app hd].
  exists (byte.of_Z (Z.of_nat (n * HASH_L))), (spec_tag suite (ctx_string ctx)).
  split; [|split].
  - unfold spec_u0_message. rewrite big_endian_16_small by assumption. reflexivity.
  - rewrite byte.unsigned_of_Z. unfold byte.wrap. change HASH_L with 48%nat.
    rewrite Z.mod_small by lia. lia.
  - unfold spec_tag. rewrite byte.unsigned_of_Z. unfold byte.wrap.
    apply Z.mod_small. lia.
Qed.
End MoreHashToCurve.

Section MoreGroupOps.
Context {hash : crypto_hash_sha512} {ref10 : ed25519_ref10}.

Lemma valid_point_decodes (p : list byte) :
  crypto_core_ed25519_is_valid_point p = 1 -> decodes_on_curve p = true.
Proof.
  unfold crypto_core_ed25519_is_valid_point, crypto_core_ed25519_is_valid_point_trace,
    decodes_on_curve, point_check_passes.
  destruct (ge25519_is_canonical p =? 0); [discriminate|].
  destruct (ge25519_has_small_order p =? 0); [|discriminate].
  destruct (ge25519_frombytes p) as [p_p3|]; [|discriminate].
  destruct (ge25519_is_on_curve p_p3 =? 0); [discriminate|].
  reflexivity.
Qed.

Lemma crypto_core_ed25519_sub_ret (r p q : list byte) :
  fst (crypto_core_ed25519_sub r p q)
  = if decodes_on_curve p && decodes_on_curve q then 0 else -1.
Proof.
  unfold crypto_core_ed25519_sub, decodes_on_curve, point_check_passes.
  destruct (ge25519_frombytes p) as [p_p3|];
    [destruct (ge25519_is_on_curve p_p3 =? 0);
     [| destruct (ge25519_frombytes q) as [q_p3|];
        [destruct (ge25519_is_on_curve q_p3 =? 0)|]]|];
    reflexivity.
Qed.

(** X16.  Two encodings that [crypto_core_ed25519_is_valid_point] accepts
    are always accepted as operands by [crypto_core_ed25519_add] and
    [crypto_core_ed25519_sub]. *)
Theorem valid_points_add_sub_succeed (r p q : list byte) :
  crypto_core_ed25519_is_valid_point p = 1 ->
  crypto_core_ed25519_is_valid_point q = 1 ->
  fst (crypto_core_ed25519_add r p q) = 0
  /\ fst (crypto_core_ed25519_sub r p q) = 0.
Proof.
  intros Hp Hq. apply valid_point_decodes in Hp, Hq.
  rewrite crypto_core_ed25519_add_ret, crypto_core_ed25519_sub_ret, Hp, Hq.
  split; reflexivity.
Qed.

Hypothesis sha512_length : forall m, length (sha512 m) = 64%nat.
Hypothesis from_hash_length : forall h, length (ge25519_from_hash h) = 32%nat.

Lemma points_loop_prefix (u u0 px : list byte) (n : nat) :
  (n <= 2)%nat -> length u0 = 64%nat -> length u = 128%nat ->
  (32 * n <= length px)%nat ->
  points_loop u n 0 u0 px
  = concat
      (map (fun i => ge25519_from_hash (repeat Byte.x00 16 ++ bytes_at u (i * 48) 48))
         (seq 0 n))
    ++ skipn (32 * n) px.
Proof.
  intros Hn Hu0 Hu Hpx.
  destruct n as [|[|[|n]]]; try lia; cbn [points_loop seq map concat].
  - reflexivity.
  - change (0 * crypto_core_ed25519_BYTES)%nat with 0%nat.
    change crypto_core_ed25519_BYTES with 32%nat.
    rewrite field_seed_buffer_spec by lia.
    rewrite <- (firstn_skipn 32 px) at 1.
    rewrite memcpy_front
      by (apply from_hash_length || (rewrite length_firstn; lia)).
    rewrite app_nil_r. reflexivity.
  - change (0 * crypto_core_ed25519_BYTES)%nat with 0%nat.
    change (1 * crypto_core_ed25519_BYTES)%nat with 32%nat.
    change crypto_core_ed25519_BYTES with 32%nat.
    rewrite (field_seed_buffer_spec _ u 1)
      by (lia || apply field_seed_buffer_length; lia).
    rewrite field_seed_buffer_spec by lia.
    rewrite <- (firstn_skipn 32 px) at 1.
    rewrite <- (firstn_skipn 32 (skipn 32 px)) at 1.
    rewrite skipn_skipn.
    rewrite memcpy_front
      by (apply from_hash_length || (rewrite length_firstn; lia)).
    unfold memcpy at 1.
    rewrite (firstn_all2 (n := 32) (ge25519_from_hash _))
      by (rewrite from_hash_length; lia).
    rewrite upds_app_mid
      by (rewrite ?from_hash_length, ?length_firstn, ?length_skipn; lia).
    rewrite app_nil_r, <- app_assoc. reflexivity.
Qed.

(** X15.  Given an output array of at least 32 n bytes, a successful
    [_string_to_points] writes the n points into its first 32 n bytes and
    leaves every later byte, and the length, as they were. *)
Theorem string_to_points_writes_prefix (px : list byte) (n : nat)
    (suite : list byte) (ctx : option (list byte)) (msg : list byte) :
  (n <= 2)%nat -> (length suite + length (ctx_string ctx) <= 255)%nat ->
  (32 * n <= length px)%nat ->
  let r := _string_to_points px n suite ctx msg in
  length (h2c_out r) = length px
  /\ skipn (32 * n) (h2c_out r) = skipn (32 * n) px
  /\ firstn (32 * n) (h2c_out r)
     = concat
         (map (fun i =>
                 ge25519_from_hash
                   (repeat Byte.x00 16
                    ++ bytes_at (concat (map sha512 (tl (h2c_hashed r)))) (i * 48) 48))
            (seq 0 n)).
Proof.
  intros Hn Hlen Hpx.
  rewrite string_to_points_accepted by (apply not_rejects; assumption).
  cbn [h2c_hashed h2c_out].
  destruct (expand_loop_run sha512_length
              (sha512 (spec_u0_message n msg (spec_tail_tag_first suite (ctx_string ctx))))
              suite (match ctx with Some c => c | None => [] end)
              (match ctx with Some c => strlen c | None => O end)
              (byte.of_Z (Z.of_nat (n * HASH_L))) (spec_tag suite (ctx_string ctx))
              (spec_u0_message n msg (spec_tail_tag_first suite (ctx_string ctx)))
              n (sha512_length _) Hn) as [Hlog Hu].
  rewrite Hlog, Hu. cbn [tl].
  set (blocks := map sha512 _).
  assert (Hblocks : length (concat blocks) = (64 * n)%nat).
  { subst blocks. destruct n as [|[|[|n]]]; try lia; cbn [seq map concat];
      rewrite ?length_app, ?sha512_length; reflexivity. }
  rewrite points_loop_prefix by
    (try assumption; try apply sha512_length;
     rewrite length_app, Hblocks, repeat_length; lia).
  set (points := concat (map _ (seq 0 n))).
  assert (Hpoints : length points = (32 * n)%nat).
  { subst points. destruct n as [|[|[|n]]]; try lia; cbn [seq map concat];
      rewrite ?length_app, ?from_hash_length; reflexivity. }
  split; [|split].
  - rewrite length_app, length_skipn, Hpoints. lia.
  - apply skipn_app_exact. exact Hpoints.
  - rewrite firstn_app_exact by exact Hpoints. subst points.
    f_equal. apply map_ext_in. intros i Hi. apply in_seq in Hi.
    rewrite bytes_at_app_within by lia. reflexivity.
Qed.

(** X13.  With a context of at most 222 bytes
    [crypto_core_ed25519_from_string_ro] returns what
    [crypto_core_ed25519_add] returns on the two points mapped from the
    seeds at offsets 0 and 48 of u_0 || u_1, and hashes the three messages
    of the expansion with the RO suite. *)
Theorem from_string_ro_is_sum (p : list byte) (ctx : option (list byte))
    (msg : list byte) :
  (length (ctx_string ctx) <= 222)%nat ->
  let hashed := spec_hashed 2 msg (spec_tail_tag_first suite_RO (ctx_string ctx)) in
  let u := concat (map sha512 (tl hashed)) in
  let p0 := ge25519_from_hash (repeat Byte.x00 16 ++ bytes_at u 0 48) in
  let p1 := ge25519_from_hash (repeat Byte.x00 16 ++ bytes_at u 48 48) in
  crypto_core_ed25519_from_string_ro p ctx msg
  = {| h2c_ret := fst (crypto_core_ed25519_add p p0 p1);
       h2c_out := snd (crypto_core_ed25519_add p p0 p1);
       h2c_hashed := hashed |}.
Proof.
  intros Hctx. cbv zeta. unfold crypto_core_ed25519_from_string_ro.
  assert (Hlen : (length suite_RO + length (ctx_string ctx) <= 255)%nat)
    by (change (length suite_RO) with 33%nat; lia).
  destruct (string_to_points_run (uninit (2 * crypto_core_ed25519_BYTES)) 2
              suite_RO ctx msg sha512_length from_hash_length (le_n 2) Hlen eq_refl)
    as [_ Hrun].
  rewrite Hrun. cbn [h2c_ret h2c_out h2c_hashed Z.eqb negb seq map concat].
  change crypto_core_ed25519_BYTES with 32%nat.
  rewrite bytes_at_app_l by apply from_hash_length.
  rewrite app_nil_r, bytes_at_app_r by apply from_hash_length.
  change (0 * 48)%nat with 0%nat. change (1 * 48)%nat with 48%nat.
  destruct (crypto_core_ed25519_add p _ _) as [ret p']. reflexivity.
Qed.

(** X19.  With a context of at most 222 bytes
    [crypto_core_ed25519_from_string] returns 0 and writes the single point
    mapped from the first 48 bytes of u_0, hashing the two messages of the
    expansion with the NU suite. *)
Theorem from_string_is_one_point (p : list byte) (ctx : option (list byte))
    (msg : list byte) :
  length p = 32%nat -> (length (ctx_string ctx) <= 222)%nat ->
  let hashed := spec_hashed 1 msg (spec_tail_tag_first suite_NU (ctx_string ctx)) in
  let u := concat (map sha512 (tl hashed)) in
  crypto_core_ed25519_from_string p ctx msg
  = {| h2c_ret := 0;
       h2c_out := ge25519_from_hash (repeat Byte.x00 16 ++ firstn 48 u);
       h2c_hashed := hashed |}.
Proof.
  intros Hp Hctx. cbv zeta. unfold crypto_core_ed25519_from_string.
  assert (Hlen : (length suite_NU + length (ctx_string ctx) <= 255)%nat)
    by (change (length suite_NU) with 33%nat; lia).
  destruct (string_to_points_run p 1 suite_NU ctx msg sha512_length from_hash_length
              (le_S _ _ (le_n 1)) Hlen Hp) as [_ Hrun].
  rewrite Hrun. cbn [seq map concat]. rewrite app_nil_r. reflexivity.
Qed.
End MoreGroupOps.

(** * The further properties on example inputs *)

Lemma scalar_add_exact_without_carry_witness :
  (length L_minus_1 = 32%nat /\ length (Byte.x01 :: repeat Byte.x00 31) = 32%nat
   /\ le_combine L_minus_1 + le_combine (Byte.x01 :: repeat Byte.x00 31) < 2 ^ 256)
  /\ crypto_core_ed25519_scalar_add L_minus_1 (Byte.x01 :: repeat Byte.x00 31)
     = le_split 32
         ((le_combine L_minus_1 + le_combine (Byte.x01 :: repeat Byte.x00 31)) mod ell).
Proof.
  split.
  - split; [reflexivity | split; [reflexivity | vm_compute; reflexivity]].
  - apply scalar_add_exact_without_carry;
      [reflexivity | reflexivity | vm_compute; reflexivity].
Defined.

Lemma scalar_results_canonical_witness :
  le_combine (crypto_core_ed25519_scalar_add (repeat Byte.xff 32) (repeat Byte.xff 32))
  < ell
  /\ le_combine (crypto_core_ed25519_scalar_sub (repeat Byte.xff 32) (repeat Byte.xff 32))
     < ell
  /\ le_combine (crypto_core_ed25519_scalar_negate (repeat Byte.xff 32)) < ell
  /\ le_combine (crypto_core_ed25519_scalar_complement (repeat Byte.xff 32)) < ell
  /\ le_combine (crypto_core_ed25519_scalar_reduce (repeat Byte.xff 64)) < ell.
Proof.
  apply (scalar_results_canonical (repeat Byte.xff 32) (repeat Byte.xff 32)
           (repeat Byte.xff 64)); reflexivity.
Defined.

Lemma scalar_negate_any_input_witness :
  length L = 32%nat
  /\ crypto_core_ed25519_scalar_negate L = repeat Byte.x00 32.
Proof.
  split; [reflexivity|].
  apply (proj1 (proj2 (scalar_negate_any_input L eq_refl))).
  vm_compute. reflexivity.
Defined.

Lemma scalar_complement_any_input_witness :
  length L = 32%nat
  /\ le_combine (crypto_core_ed25519_scalar_complement L) = ell + 1 - le_combine L.
Proof.
  split; [reflexivity|].
  apply (proj2 (proj2 (scalar_complement_any_input L eq_refl))).
  vm_compute. split; [reflexivity | discriminate].
Defined.

Lemma scalar_sub_value_witness :
  (length (Byte.x01 :: repeat Byte.x00 31) = 32%nat
   /\ length (repeat Byte.xff 32) = 32%nat
   /\ le_combine (Byte.x01 :: repeat Byte.x00 31) < ell)
  /\ crypto_core_ed25519_scalar_sub (Byte.x01 :: repeat Byte.x00 31) (repeat Byte.xff 32)
     = le_split 32
         ((le_combine (Byte.x01 :: repeat Byte.x00 31) - le_combine (repeat Byte.xff 32))
          mod ell).
Proof.
  split.
  - split; [reflexivity | split; [reflexivity | vm_compute; reflexivity]].
  - apply scalar_sub_value; [reflexivity | reflexivity | vm_compute; reflexivity].
Defined.

Lemma scalar_sub_add_round_trip_witness :
  (length L_minus_1 = 32%nat /\ le_combine L_minus_1 < ell)
  /\ crypto_core_ed25519_scalar_sub
       (crypto_core_ed25519_scalar_add L_minus_1 L_minus_1) L_minus_1 = L_minus_1
  /\ crypto_core_ed25519_scalar_add
       (crypto_core_ed25519_scalar_sub L_minus_1 L_minus_1) L_minus_1 = L_minus_1.
Proof.
  split.
  - split; [reflexivity | vm_compute; reflexivity].
  - apply scalar_sub_add_round_trip;
      [reflexivity | reflexivity | vm_compute; reflexivity | vm_compute; reflexivity].
Defined.

Lemma scalar_reduce_idempotent_witness :
  (length (repeat Byte.xff 64) = 64%nat /\ length L_minus_1 = 32%nat
   /\ le_combine L_minus_1 < ell)
  /\ crypto_core_ed25519_scalar_reduce
       (crypto_core_ed25519_scalar_reduce (repeat Byte.xff 64) ++ repeat Byte.x00 32)
     = crypto_core_ed25519_scalar_reduce (repeat Byte.xff 64)
  /\ crypto_core_ed25519_scalar_reduce (L_minus_1 ++ repeat Byte.x00 32) = L_minus_1.
Proof.
  split.
  - split; [reflexivity | split; [reflexivity | vm_compute; reflexivity]].
  - apply scalar_reduce_idempotent; [reflexivity | reflexivity | vm_compute; reflexivity].
Defined.

Lemma scalar_add_commutative_witness :
  (length (repeat Byte.xff 32) = 32%nat /\ length L_minus_1 = 32%nat)
  /\ crypto_core_ed25519_scalar_add (repeat Byte.xff 32) L_minus_1
     = crypto_core_ed25519_scalar_add L_minus_1 (repeat Byte.xff 32).
Proof.
  split; [split; reflexivity|].
  apply scalar_add_commutative; reflexivity.
Defined.

Lemma scalar_negate_complement_involutive_witness :
  (length L_minus_1 = 32%nat /\ le_combine L_minus_1 < ell)
  /\ crypto_core_ed25519_scalar_negate (crypto_core_ed25519_scalar_negate L_minus_1)
     = L_minus_1
  /\ crypto_core_ed25519_scalar_complement
       (crypto_core_ed25519_scalar_complement L_minus_1) = L_minus_1.
Proof.
  split.
  - split; [reflexivity | vm_compute; reflexivity].
  - apply scalar_negate_complement_involutive; [reflexivity | vm_compute; reflexivity].
Defined.

Lemma scalar_add_monoid_witness :
  (length L_minus_1 = 32%nat /\ le_combine L_minus_1 < ell)
  /\ crypto_core_ed25519_scalar_add
       (crypto_core_ed25519_scalar_add L_minus_1 L_minus_1) L_minus_1
     = crypto_core_ed25519_scalar_add L_minus_1
         (crypto_core_ed25519_scalar_add L_minus_1 L_minus_1)
  /\ crypto_core_ed25519_scalar_add L_minus_1 (repeat Byte.x00 32) = L_minus_1
  /\ crypto_core_ed25519_scalar_add (repeat Byte.x00 32) L_minus_1 = L_minus_1.
Proof.
  split.
  - split; [reflexivity | vm_compute; reflexivity].
  - apply scalar_add_monoid; (reflexivity || (vm_compute; reflexivity)).
Defined.

Lemma scalar_add_zero_reduces_witness :
  length L = 32%nat
  /\ crypto_core_ed25519_scalar_add L (repeat Byte.x00 32)
     = crypto_core_ed25519_scalar_reduce (L ++ repeat Byte.x00 32)
  /\ le_combine (crypto_core_ed25519_scalar_add L (repeat Byte.x00 32))
     = le_combine L mod ell.
Proof.
  split; [reflexivity|]. apply scalar_add_zero_reduces. reflexivity.
Defined.

Lemma string_to_points_ctx_string_witness :
  ctx_string None = ctx_string (Some [Byte.x00; Byte.x41])
  /\ @_string_to_points demo_hash demo_ref10 (uninit 32) 1 suite_NU None demo_msg
     = @_string_to_points demo_hash demo_ref10 (uninit 32) 1 suite_NU
         (Some [Byte.x00; Byte.x41]) demo_msg.
Proof.
  split; [reflexivity|].
  apply (@string_to_points_ctx_string demo_hash demo_ref10). reflexivity.
Defined.

Lemma from_string_ro_is_sum_witness :
  (length (ctx_string demo_ctx) <= 222)%nat
  /\ h2c_ret (@crypto_core_ed25519_from_string_ro demo_hash demo_ref10 (uninit 32)
               demo_ctx demo_msg)
     = fst (@crypto_core_ed25519_add demo_ref10 (uninit 32)
              (@ge25519_from_hash demo_ref10
                 (repeat Byte.x00 16
                  ++ bytes_at
                       (concat (map (@sha512 demo_hash)
                          (tl (@spec_hashed demo_hash 2 demo_msg
                                 (spec_tail_tag_first suite_RO (ctx_string demo_ctx))))))
                       0 48))
              (@ge25519_from_hash demo_ref10
                 (repeat Byte.x00 16
                  ++ bytes_at
                       (concat (map (@sha512 demo_hash)
                          (tl (@spec_hashed demo_hash 2 demo_msg
                                 (spec_tail_tag_first suite_RO (ctx_string demo_ctx))))))
                       48 48))).
Proof.
  split; [vm_compute; lia|].
  rewrite (@from_string_ro_is_sum demo_hash demo_ref10 demo_sha512_length
             demo_from_hash_length (uninit 32) demo_ctx demo_msg)
    by (vm_compute; lia).
  reflexivity.
Defined.

Lemma string_to_points_no_points_witness :
  (length suite_NU + length (ctx_string demo_ctx) <= 255)%nat
  /\ @_string_to_points demo_hash demo_ref10 (uninit 32) 0 suite_NU demo_ctx demo_msg
     = {| h2c_ret := 0;
          h2c_out := uninit 32;
          h2c_hashed :=
            [repeat Byte.x00 128 ++ demo_msg
             ++ [Byte.x00; Byte.x00; Byte.x00; spec_tag suite_NU (ctx_string demo_ctx)]
             ++ suite_NU ++ ctx_string demo_ctx] |}.
Proof.
  split; [vm_compute; lia|].
  apply (@string_to_points_no_points demo_hash demo_ref10). vm_compute. lia.
Defined.

Lemma string_to_points_writes_prefix_witness :
  ((2 <= 2)%nat /\ (length suite_RO + length (ctx_string demo_ctx) <= 255)%nat
   /\ (32 * 2 <= length (repeat Byte.xaa 100))%nat)
  /\ skipn (32 * 2)
       (h2c_out (@_string_to_points demo_hash demo_ref10 (repeat Byte.xaa 100) 2
                   suite_RO demo_ctx demo_msg))
     = skipn (32 * 2) (repeat Byte.xaa 100).
Proof.
  split.
  - split; [lia | split; [vm_compute; lia | vm_compute; lia]].
  - apply (@string_to_points_writes_prefix demo_hash demo_ref10 demo_sha512_length
             demo_from_hash_length (repeat Byte.xaa 100) 2 suite_RO demo_ctx demo_msg);
      [lia | vm_compute; lia | vm_compute; lia].
Defined.

Lemma valid_points_add_sub_succeed_witness :
  (@crypto_core_ed25519_is_valid_point demo_ref10 (Byte.x08 :: repeat Byte.x00 31) = 1
   /\ @crypto_core_ed25519_is_valid_point demo_ref10 (Byte.x10 :: repeat Byte.x00 31) = 1)
  /\ fst (@crypto_core_ed25519_add demo_ref10 (uninit 32)
            (Byte.x08 :: repeat Byte.x00 31) (Byte.x10 :: repeat Byte.x00 31)) = 0
  /\ fst (@crypto_core_ed25519_sub demo_ref10 (uninit 32)
            (Byte.x08 :: repeat Byte.x00 31) (Byte.x10 :: repeat Byte.x00 31)) = 0.
Proof.
  split.
  - split; vm_compute; reflexivity.
  - apply (@valid_points_add_sub_succeed demo_ref10); vm_compute; reflexivity.
Defined.

Lemma string_to_points_length_bytes_witness :
  ((2 <= 2)%nat /\ (length suite_RO + length (ctx_string demo_ctx) <= 255)%nat)
  /\ exists l_i_b tag,
       hd [] (h2c_hashed demo_ro)
       = repeat Byte.x00 128 ++ demo_msg ++ [Byte.x00; l_i_b; Byte.x00; tag]
         ++ suite_RO ++ ctx_string demo_ctx
       /\ byte.unsigned l_i_b = 48 * Z.of_nat 2
       /\ byte.unsigned tag
          = Z.of_nat (length suite_RO) + Z.of_nat (length (ctx_string demo_ctx)).
Proof.
  split.
  - split; [lia | vm_compute; lia].
  - apply (@string_to_points_length_bytes demo_hash demo_ref10);
      [lia | vm_compute; lia].
Defined.

Lemma from_string_is_one_point_witness :
  (length (uninit 32) = 32%nat /\ (length (ctx_string demo_ctx) <= 222)%nat)
  /\ @crypto_core_ed25519_from_string demo_hash demo_ref10 (uninit 32) demo_ctx demo_msg
     = {| h2c_ret := 0;
          h2c_out :=
            @ge25519_from_hash demo_ref10
              (repeat Byte.x00 16
               ++ firstn 48
                    (concat (map (@sha512 demo_hash)
                       (tl (@spec_hashed demo_hash 1 demo_msg
                              (spec_tail_tag_first suite_NU (ctx_string demo_ctx)))))));
          h2c_hashed :=
            @spec_hashed demo_hash 1 demo_msg
              (spec_tail_tag_first suite_NU (ctx_string demo_ctx)) |}.
Proof.
  split.
  - split; [reflexivity | vm_compute; lia].
  - apply (@from_string_is_one_point demo_hash demo_ref10 demo_sha512_length
             demo_from_hash_length); [reflexivity | vm_compute; lia].
Defined.
